(** * A first-fit pool allocator: model of [memory_manager.c]

    The allocator keeps a singly linked chain of [MemBlock] descriptors
    over one byte arena.  The chain is modelled as a Rocq [list] in chain
    order (the [next] pointer of a descriptor is the tail of the list),
    [size_t] values as [Z] with the wrap-around of 64-bit arithmetic
    written out, and pointers as 64-bit addresses with [NULL = 0].

    The only source of non-determinism inside an operation is the host
    [malloc] used for descriptor bookkeeping.  Every public operation
    calls it at most once, so each operation takes one boolean
    [malloc_ok] telling whether that call (if reached) succeeds. *)

From Stdlib Require Import ZArith List Bool Lia.
From Stdlib Require Import Permutation.
Import ListNotations.
Local Open Scope Z_scope.

(** ** Machine arithmetic *)

Definition SIZE_MAX1 : Z := 2 ^ 64.

(** Reduction of a mathematical result to a [size_t] (or to an address). *)
Definition wrap (z : Z) : Z := z mod SIZE_MAX1.

Definition is_size_t (z : Z) : Prop := 0 <= z < SIZE_MAX1.

Definition NULL : Z := 0.

(** ** Data model *)

(** [struct MemBlock] without its [next] field. *)
Record MemBlock : Type := mkBlock {
  offset  : Z;      (* where the block starts in the pool *)
  size    : Z;      (* how big it is *)
  is_free : bool    (* 1 = free, 0 = in use *)
}.

Definition set_size (b : MemBlock) (s : Z) : MemBlock :=
  mkBlock (offset b) s (is_free b).

Definition set_is_free (b : MemBlock) (f : bool) : MemBlock :=
  mkBlock (offset b) (size b) f.

(** The global variables.  [memory_pool] is split into the address of the
    buffer and its contents, indexed by offset. *)
Record pool : Type := mkPool {
  memory_pool : Z;
  pool_size   : Z;
  block_list  : list MemBlock;
  pool_bytes  : Z -> Z
}.

Definition with_blocks (st : pool) (l : list MemBlock) : pool :=
  mkPool (memory_pool st) (pool_size st) l (pool_bytes st).

Definition with_bytes (st : pool) (m : Z -> Z) : pool :=
  mkPool (memory_pool st) (pool_size st) (block_list st) m.

(** [memory_pool + off] and [(char * )ptr - memory_pool]. *)
Definition ptr_of (st : pool) (off : Z) : Z := wrap (memory_pool st + off).
Definition offset_of (st : pool) (ptr : Z) : Z := wrap (ptr - memory_pool st).

(** ** mem_init *)

(** [p] is what the host [malloc size] returned for the arena, [bytes]
    its (indeterminate) contents, [malloc_ok] whether the descriptor of
    [create_initial_block] could be obtained.  [None] is [exit]. *)
Definition mem_init (sz : Z) (p : Z) (bytes : Z -> Z) (malloc_ok : bool)
  : option pool :=
  if p =? NULL then None
  else if malloc_ok then Some (mkPool p sz [mkBlock 0 sz true] bytes)
  else None.

(** ** mem_alloc *)

(** The [size == 0] loop: first free descriptor, if any. *)
Fixpoint first_free (l : list MemBlock) : option MemBlock :=
  match l with
  | [] => None
  | curr :: rest => if is_free curr then Some curr else first_free rest
  end.

(** The descriptor pair produced by a split of [curr] at [sz]: [curr]
    shrunk to [sz], followed by a new free descriptor for the rest. *)
Definition split_block (curr : MemBlock) (sz : Z) : list MemBlock :=
  [ set_size curr sz ;
    mkBlock (wrap (offset curr + sz)) (wrap (size curr - sz)) true ].

(** The first-fit loop.  The result is the offset of the descriptor handed
    out together with the new chain; [None] is the [NULL] result, which
    leaves the chain as it was. *)
Fixpoint alloc_scan (sz : Z) (malloc_ok : bool) (l : list MemBlock)
  : option (Z * list MemBlock) :=
  match l with
  | [] => None
  | curr :: rest =>
      if negb (is_free curr) || (size curr <? sz) then
        match alloc_scan sz malloc_ok rest with
        | Some (off, rest') => Some (off, curr :: rest')
        | None => None
        end
      else if sz <? size curr then
        if malloc_ok
        then Some (offset curr,
                   split_block (set_is_free curr false) sz ++ rest)
        else None
      else Some (offset curr, set_is_free curr false :: rest)
  end.

Definition mem_alloc (sz : Z) (malloc_ok : bool) (st : pool) : Z * pool :=
  if sz =? 0 then
    match first_free (block_list st) with
    | Some curr => (ptr_of st (offset curr), st)
    | None => (NULL, st)
    end
  else
    match alloc_scan sz malloc_ok (block_list st) with
    | Some (off, l) => (ptr_of st off, with_blocks st l)
    | None => (NULL, st)
    end.

(** ** mem_free *)

Definition opt_cons (prev : option MemBlock) (l : list MemBlock)
  : list MemBlock :=
  match prev with Some p => p :: l | None => l end.

(** Step 4: absorb the next descriptor if it is free. *)
Definition merge_next (curr : MemBlock) (rest : list MemBlock)
  : MemBlock * list MemBlock :=
  match rest with
  | next :: rest' =>
      if is_free next
      then (set_size curr (wrap (size curr + size next)), rest')
      else (curr, rest)
  | [] => (curr, rest)
  end.

(** Step 5: let the previous descriptor absorb [curr] if it is free.
    The result is the chain from [prev] on. *)
Definition merge_prev (prev : option MemBlock) (curr : MemBlock)
  (rest : list MemBlock) : list MemBlock :=
  match prev with
  | Some p =>
      if is_free p
      then set_size p (wrap (size p + size curr)) :: rest
      else p :: curr :: rest
  | None => curr :: rest
  end.

(** The search loop with its trailing [prev] pointer ([None] is the
    initial [prev = NULL]).  The result is the chain from [prev] on. *)
Fixpoint free_scan (off : Z) (prev : option MemBlock) (l : list MemBlock)
  : list MemBlock :=
  match l with
  | [] => opt_cons prev []
  | curr :: rest =>
      if negb (offset curr =? off) then
        opt_cons prev (free_scan off (Some curr) rest)
      else if is_free curr then opt_cons prev l
      else
        let (curr', rest') := merge_next (set_is_free curr true) rest in
        merge_prev prev curr' rest'
  end.

Definition mem_free (ptr : Z) (st : pool) : pool :=
  if ptr =? NULL then st
  else with_blocks st (free_scan (offset_of st ptr) None (block_list st)).

(** ** mem_resize *)

(** What the locked part of [mem_resize] decides. *)
Inductive resize_outcome : Type :=
| RSame (l : list MemBlock)      (* return ptr, chain is now l *)
| RNull (l : list MemBlock)      (* bookkeeping malloc failed, chain is now l *)
| RMove (old_size : Z)           (* step 6: relocate *)
| RNotFound.                     (* step 7 *)

Definition outcome_cons (b : MemBlock) (r : resize_outcome) : resize_outcome :=
  match r with
  | RSame l => RSame (b :: l)
  | RNull l => RNull (b :: l)
  | RMove s => RMove s
  | RNotFound => RNotFound
  end.

(** Shared tail of steps 4 and 5: give [curr] exactly [sz] bytes, splitting
    off the leftover when there is one. *)
Definition shrink_to (curr : MemBlock) (sz : Z) (malloc_ok : bool)
  (rest : list MemBlock) : resize_outcome :=
  if sz <? size curr then
    if malloc_ok then RSame (split_block curr sz ++ rest)
    else RNull (curr :: rest)
  else RSame (curr :: rest).

Fixpoint resize_scan (off sz : Z) (malloc_ok : bool) (l : list MemBlock)
  : resize_outcome :=
  match l with
  | [] => RNotFound
  | curr :: rest =>
      if negb (offset curr =? off) then
        outcome_cons curr (resize_scan off sz malloc_ok rest)
      else if sz <=? size curr then shrink_to curr sz malloc_ok rest
      else
        match rest with
        | next :: rest' =>
            if is_free next && (sz <=? wrap (size curr + size next)) then
              shrink_to (set_size curr (wrap (size curr + size next)))
                        sz malloc_ok rest'
            else RMove (size curr)
        | [] => RMove (size curr)
        end
  end.

(** [memcpy] inside the arena, on offsets. *)
Definition memcpy (dst src n : Z) (m : Z -> Z) : Z -> Z :=
  fun i => if (dst <=? i) && (i <? dst + n) then m (src + (i - dst)) else m i.

Definition mem_resize (ptr sz : Z) (malloc_ok : bool) (st : pool) : Z * pool :=
  if ptr =? NULL then mem_alloc sz malloc_ok st
  else if sz =? 0 then (NULL, mem_free ptr st)
  else
    match resize_scan (offset_of st ptr) sz malloc_ok (block_list st) with
    | RSame l => (ptr, with_blocks st l)
    | RNull l => (NULL, with_blocks st l)
    | RNotFound => (NULL, st)
    | RMove old_size =>
        let (new_ptr, st1) := mem_alloc sz malloc_ok st in
        if new_ptr =? NULL then (NULL, st1)
        else
          let st2 :=
            with_bytes st1
              (memcpy (offset_of st1 new_ptr) (offset_of st1 ptr)
                      (Z.min old_size sz) (pool_bytes st1)) in
          (new_ptr, mem_free ptr st2)
    end.

(** ** Sequences of calls *)

Inductive call : Type :=
| Allocate (sz : Z) (malloc_ok : bool)
| Release (ptr : Z)
| Resize (ptr sz : Z) (malloc_ok : bool).

(** The arguments of a call are values of their C types. *)
Definition call_ok (c : call) : Prop :=
  match c with
  | Allocate sz _ => is_size_t sz
  | Release ptr => is_size_t ptr
  | Resize ptr sz _ => is_size_t ptr /\ is_size_t sz
  end.

Definition step (st : pool) (c : call) : pool :=
  match c with
  | Allocate sz ok => snd (mem_alloc sz ok st)
  | Release ptr => mem_free ptr st
  | Resize ptr sz ok => snd (mem_resize ptr sz ok st)
  end.

Definition run (cs : list call) (st : pool) : pool := fold_left step cs st.

(** ** Ledger properties *)

(** [tiles start l stop]: the descriptors of [l], in chain order, cover
    [start, stop) back to back, each with a positive length. *)
Fixpoint tiles (start : Z) (l : list MemBlock) (stop : Z) : Prop :=
  match l with
  | [] => start = stop
  | b :: rest => offset b = start /\ 0 < size b /\ tiles (start + size b) rest stop
  end.

(** The partition property, spelled out descriptor by descriptor. *)
Definition partitions (c : Z) (l : list MemBlock) : Prop :=
  (exists b rest, l = b :: rest /\ offset b = 0) /\
  (forall i b b', nth_error l i = Some b -> nth_error l (S i) = Some b' ->
                  offset b' = offset b + size b) /\
  Forall (fun b => 0 < size b) l /\
  (exists front b, l = front ++ [b] /\ offset b + size b = c).

Definition ledger_ok (st : pool) : Prop :=
  0 < pool_size st < SIZE_MAX1 /\ tiles 0 (block_list st) (pool_size st).

(** The arena is a region the host really handed out. *)
Definition arena_ok (st : pool) : Prop :=
  0 < memory_pool st /\ memory_pool st + pool_size st <= SIZE_MAX1.

Definition pool_ok (st : pool) : Prop := ledger_ok st /\ arena_ok st.

(** Two neighbours in the chain that are both free. *)
Fixpoint adjacent_free (l : list MemBlock) : bool :=
  match l with
  | a :: rest =>
      match rest with
      | b :: _ => (is_free a && is_free b) || adjacent_free rest
      | [] => false
      end
  | [] => false
  end.

Definition head_free (l : list MemBlock) : bool :=
  match l with
  | b :: _ => is_free b
  | [] => false
  end.

(** Calls other than [mem_resize]. *)
Definition no_resize (c : call) : Prop :=
  match c with
  | Resize _ _ _ => False
  | Allocate _ _ | Release _ => True
  end.

(** A descriptor that can serve a request of [sz] bytes. *)
Definition fits (sz : Z) (b : MemBlock) : bool :=
  is_free b && (sz <=? size b).

(** The first descriptor of the chain at a given offset, as the search
    loops of [mem_free] and [mem_resize] find it. *)
Fixpoint find_block (off : Z) (l : list MemBlock) : option MemBlock :=
  match l with
  | [] => None
  | curr :: rest => if offset curr =? off then Some curr else find_block off rest
  end.

(** ** The merges of a release, in the words of the specification *)

(** "Merge with the next descriptor if it is free (absorb its length, drop
    it from the chain)". *)
Definition absorb_next (b : MemBlock) (after : list MemBlock)
  : MemBlock * list MemBlock :=
  match after with
  | n :: t =>
      if is_free n
      then (mkBlock (offset b) (size b + size n) (is_free b), t)
      else (b, after)
  | [] => (b, [])
  end.

(** "Merge with the previous descriptor if it is free (absorb the current
    descriptor's length into it, drop the current one)": the chain from
    the previous descriptor [p] on. *)
Definition absorb_into_prev (p b : MemBlock) (after : list MemBlock)
  : list MemBlock :=
  if is_free p
  then mkBlock (offset p) (size p + size b) (is_free p) :: after
  else p :: b :: after.

(** The chain an outcome of the locked part of [mem_resize] leaves behind,
    when it fixes one. *)
Definition outcome_chain (r : resize_outcome) : option (list MemBlock) :=
  match r with
  | RSame l | RNull l => Some l
  | RMove _ | RNotFound => None
  end.

(** ** mem_deinit *)

(** The arena and every descriptor are given back to the host and the
    globals are reset.  The contents field has no meaning once
    [memory_pool] is [NULL]; it is left as it was. *)
Definition mem_deinit (st : pool) : pool :=
  mkPool NULL 0 [] (pool_bytes st).

(** ** Byte accounting *)

(** The bytes held by free descriptors, and by descriptors in use. *)
Fixpoint free_bytes (l : list MemBlock) : Z :=
  match l with
  | [] => 0
  | b :: rest => (if is_free b then size b else 0) + free_bytes rest
  end.

Fixpoint used_bytes (l : list MemBlock) : Z :=
  match l with
  | [] => 0
  | b :: rest => (if is_free b then 0 else size b) + used_bytes rest
  end.

(** The descriptors a successful [mem_alloc] of [sz] bytes puts in the
    place of the free descriptor [b] it chose. *)
Definition served (b : MemBlock) (sz : Z) : list MemBlock :=
  if sz <? size b
  then [mkBlock (offset b) sz false;
        mkBlock (offset b + sz) (size b - sz) true]
  else [mkBlock (offset b) sz false].

(** * The linked list of [linked_list.c]

    The list takes its nodes from the pool.  A node is modelled by the
    address [mem_alloc] returned for it together with its [data]; the
    [next] pointers are the order of the Rocq list, and [*head] is the
    list itself ([NULL] is the empty list).  The global list lock is left
    out.

    The fields of a node are stored in the arena.  Where they lie inside
    the node is fixed by the declaration of [Node] in [linked_list.h],
    which is not among the sources, so the stores and loads of the code
    are parameters of the model: every statement of the code that writes
    a node is a change of [pool_bytes] through one of them. *)

Record Node : Type := mkNode {
  node_addr : Z;    (* the pointer to the node *)
  data      : Z     (* uint16_t data *)
}.

Definition llist : Type := (list Node * pool)%type.

(** [int] arithmetic of [list_count_nodes]. *)
Definition int_wrap (z : Z) : Z := (z + 2 ^ 31) mod 2 ^ 32 - 2 ^ 31.

(** Two pool states with the same ledger: the same arena, capacity and
    chain of descriptors.  The arena bytes may differ. *)
Definition same_ledger (st1 st2 : pool) : Prop :=
  memory_pool st1 = memory_pool st2 /\
  pool_size st1 = pool_size st2 /\
  block_list st1 = block_list st2.

Section LinkedList.

(** [sizeof(Node)]. *)
Variable sizeof_Node : Z.

(** The arena after [n->data = data; n->next = NULL;
    pthread_mutex_init(&n->lock, NULL)] for the node at an offset. *)
Variable store_node : Z -> Z -> (Z -> Z) -> (Z -> Z).

(** The arena after [x->next = q] for the node [x] at an offset, and the
    value of [x->next] read from the arena. *)
Variable store_next : Z -> Z -> (Z -> Z) -> (Z -> Z).
Variable load_next : Z -> (Z -> Z) -> Z.

(** The arena after [pthread_mutex_destroy(&x->lock)]. *)
Variable destroy_lock : Z -> (Z -> Z) -> (Z -> Z).

(** [x->next = q] and [x->next] for a pointer [x] into the arena. *)
Definition set_next (x q : Z) (st : pool) : pool :=
  with_bytes st (store_next (offset_of st x) q (pool_bytes st)).

Definition get_next (x : Z) (st : pool) : Z :=
  load_next (offset_of st x) (pool_bytes st).

Definition list_init (sz p : Z) (bytes : Z -> Z) (malloc_ok : bool)
  : option llist :=
  match mem_init sz p bytes malloc_ok with
  | Some st => Some ([], st)
  | None => None
  end.

Definition new_node (d : Z) (malloc_ok : bool) (st : pool)
  : option Node * pool :=
  let (p, st') := mem_alloc sizeof_Node malloc_ok st in
  if p =? NULL then (None, st')
  else (Some (mkNode p d),
        with_bytes st' (store_node (offset_of st' p) d (pool_bytes st'))).

(** Steps 3 to 5 of [list_insert]: the new node becomes the head of an
    empty list, or the successor of the last node. *)
Fixpoint link_last (n : Node) (l : list Node) : list Node :=
  match l with
  | [] => [n]
  | cur :: rest => cur :: link_last n rest
  end.

(** The node the walk [while (cur->next) cur = cur->next] stops at. *)
Fixpoint last_node (cur : Node) (rest : list Node) : Node :=
  match rest with
  | [] => cur
  | x :: rest' => last_node x rest'
  end.

Definition list_insert (d : Z) (malloc_ok : bool) (s : llist) : llist :=
  let (hd, st) := s in
  match new_node d malloc_ok st with
  | (None, st') => (hd, st')
  | (Some n, st') =>
      (link_last n hd,
       match hd with
       | [] => st'
       | h :: rest => set_next (node_addr (last_node h rest)) (node_addr n) st'
       end)
  end.

(** [n->next = prev_node->next; prev_node->next = n] seen from the list:
    for a pointer to none of its nodes the two writes happen outside of
    the list, which stays as it is. *)
Fixpoint link_after (prev_node : Z) (n : Node) (l : list Node) : list Node :=
  match l with
  | [] => []
  | cur :: rest =>
      if node_addr cur =? prev_node then cur :: n :: rest
      else cur :: link_after prev_node n rest
  end.

Definition list_insert_after (prev_node d : Z) (malloc_ok : bool) (s : llist)
  : llist :=
  if prev_node =? NULL then s
  else
    let (hd, st) := s in
    match new_node d malloc_ok st with
    | (None, st') => (hd, st')
    | (Some n, st') =>
        (link_after prev_node n hd,
         set_next prev_node (node_addr n)
           (set_next (node_addr n) (get_next prev_node st') st'))
    end.

(** The value of [*head]. *)
Definition head_ptr (l : list Node) : Z :=
  match l with
  | h :: _ => node_addr h
  | [] => NULL
  end.

(** [*head == next_node], for a non-null [next_node]. *)
Definition head_is (next_node : Z) (l : list Node) : bool :=
  match l with
  | h :: _ => node_addr h =? next_node
  | [] => false
  end.

(** Step 4 of [list_insert_before]: walk to the node [cur] whose successor
    is [next_node].  The result is the list before [cur], [cur] itself and
    the list from [next_node] on; [None] is [cur == NULL]. *)
Fixpoint walk_to_pred (next_node : Z) (l : list Node)
  : option (list Node * Node * list Node) :=
  match l with
  | [] => None
  | cur :: rest =>
      if head_is next_node rest then Some ([], cur, rest)
      else
        match walk_to_pred next_node rest with
        | Some (pre, c, post) => Some (cur :: pre, c, post)
        | None => None
        end
  end.

Definition list_insert_before (next_node d : Z) (malloc_ok : bool) (s : llist)
  : llist :=
  if next_node =? NULL then s
  else
    let (hd, st) := s in
    if head_is next_node hd then
      match new_node d malloc_ok st with
      | (None, st') => (hd, st')
      | (Some n, st') => (n :: hd, set_next (node_addr n) (head_ptr hd) st')
      end
    else
      match walk_to_pred next_node hd with
      | None => (hd, st)
      | Some (pre, cur, post) =>
          match new_node d malloc_ok st with
          | (None, st') => (hd, st')
          | (Some n, st') =>
              (pre ++ cur :: n :: post,
               set_next (node_addr cur) (node_addr n)
                 (set_next (node_addr n) (get_next (node_addr cur) st') st'))
          end
      end.

(** The nodes from [prev] on. *)
Definition from_prev (prev : option Node) (l : list Node) : list Node :=
  match prev with Some q => q :: l | None => l end.

(** Step 3 of [list_delete]: the walk to the first node holding [d], with
    its trailing [prev] pointer ([None] is [prev == NULL]).  The result is
    the list before [prev], [prev], the node found and the list behind
    it. *)
Fixpoint unlink (d : Z) (prev : option Node) (l : list Node)
  : option (list Node * option Node * Node * list Node) :=
  match l with
  | [] => None
  | cur :: rest =>
      if negb (data cur =? d) then
        match unlink d (Some cur) rest with
        | Some (pre, p, x, post) => Some (from_prev prev pre, p, x, post)
        | None => None
        end
      else Some ([], prev, cur, rest)
  end.

(** Steps 5 and 6 of [list_delete]: [*head = cur->next] or
    [prev->next = cur->next], then [pthread_mutex_destroy(&cur->lock)] and
    [mem_free(cur)]. *)
Definition list_delete (d : Z) (s : llist) : llist :=
  let (hd, st) := s in
  match unlink d None hd with
  | None => (hd, st)
  | Some (pre, prev, cur, post) =>
      let st1 :=
        match prev with
        | None => st
        | Some q => set_next (node_addr q) (get_next (node_addr cur) st) st
        end in
      let st2 :=
        with_bytes st1
          (destroy_lock (offset_of st1 (node_addr cur)) (pool_bytes st1)) in
      (pre ++ from_prev prev post, mem_free (node_addr cur) st2)
  end.

Fixpoint list_search (d : Z) (l : list Node) : Z :=
  match l with
  | [] => NULL
  | cur :: rest => if data cur =? d then node_addr cur else list_search d rest
  end.

Definition list_count_nodes (l : list Node) : Z :=
  fold_left (fun count _ => int_wrap (count + 1)) l 0.

(** Every node is released and the pool is torn down.  The stores of
    [pthread_mutex_destroy] go to an arena that is given back to the host
    in the same call; the contents field of the torn-down state has no
    meaning and they are not written to it. *)
Definition list_cleanup (s : llist) : llist :=
  let (hd, st) := s in
  ([], mem_deinit (fold_left (fun st' cur => mem_free (node_addr cur) st') hd st)).

(** ** Sequences of list calls *)

Inductive lcall : Type :=
| LInsert (d : Z) (malloc_ok : bool)
| LInsertAfter (prev_node d : Z) (malloc_ok : bool)
| LInsertBefore (next_node d : Z) (malloc_ok : bool)
| LDelete (d : Z).

Definition lstep (s : llist) (c : lcall) : llist :=
  match c with
  | LInsert d ok => list_insert d ok s
  | LInsertAfter prev_node d ok => list_insert_after prev_node d ok s
  | LInsertBefore next_node d ok => list_insert_before next_node d ok s
  | LDelete d => list_delete d s
  end.

Definition lrun (cs : list lcall) (s : llist) : llist := fold_left lstep cs s.

(** ** The list and the pool together *)

(** The node [n] lives in a descriptor of the pool that is in use and
    [sizeof_Node] bytes long. *)
Definition node_live (st : pool) (n : Node) : Prop :=
  exists b, In b (block_list st) /\ is_free b = false /\
            size b = sizeof_Node /\ node_addr n = memory_pool st + offset b.

Definition list_ok (s : llist) : Prop :=
  pool_ok (snd s) /\
  adjacent_free (block_list (snd s)) = false /\
  NoDup (map node_addr (fst s)) /\
  Forall (node_live (snd s)) (fst s).

End LinkedList.

(** A 16-byte node layout used in the examples: [data] in the first
    byte, [next] at offset 8, the last byte of the mutex set by its
    destruction. *)
Definition store_node16 (off d : Z) (m : Z -> Z) : Z -> Z :=
  fun i => if i =? off then d
           else if (off <? i) && (i <? off + 16) then 0 else m i.

Definition store_next16 (off q : Z) (m : Z -> Z) : Z -> Z :=
  fun i => if i =? off + 8 then q else m i.

Definition load_next16 (off : Z) (m : Z -> Z) : Z := m (off + 8).

Definition destroy_lock16 (off : Z) (m : Z -> Z) : Z -> Z :=
  fun i => if i =? off + 15 then 255 else m i.

Definition lrun16 : list lcall -> llist -> llist :=
  lrun 16 store_node16 store_next16 load_next16 destroy_lock16.

(** A small pool used in the examples: 100 bytes at address 4096. *)
Definition zero_bytes : Z -> Z := fun _ => 0.

Definition pool100 : pool :=
  mkPool 4096 100 [mkBlock 0 100 true] zero_bytes.

(** * Proofs *)

(** ** Arithmetic helpers *)

Lemma SIZE_MAX1_pos : 0 < SIZE_MAX1.
Proof. reflexivity. Qed.

Lemma wrap_small (z : Z) : 0 <= z < SIZE_MAX1 -> wrap z = z.
Proof. intros H. unfold wrap. apply Z.mod_small. exact H. Qed.

(** Closes [Forall call_ok cs] for a literal list of calls. *)
Ltac calls_ok :=
  repeat apply Forall_cons; try apply Forall_nil;
  simpl; unfold is_size_t, SIZE_MAX1; lia.

(** ** Shape of a tiled chain *)

Lemma tiles_le (l : list MemBlock) : forall s e, tiles s l e -> s <= e.
Proof.
  induction l as [|b r IH]; simpl; intros s e H.
  - lia.
  - destruct H as (_ & Hp & Hr). apply IH in Hr. lia.
Qed.

Lemma tiles_app (l1 l2 : list MemBlock) :
  forall s e, tiles s (l1 ++ l2) e <-> exists m, tiles s l1 m /\ tiles m l2 e.
Proof.
  induction l1 as [|b r IH]; simpl; intros s e.
  - split.
    + intros H. exists s. split; [reflexivity | exact H].
    + intros (m & -> & H). exact H.
  - split.
    + intros (Ho & Hp & Hr). apply IH in Hr. destruct Hr as (m & H1 & H2).
      exists m. repeat split; assumption.
    + intros (m & (Ho & Hp & H1) & H2). repeat split; try assumption.
      apply IH. exists m. split; assumption.
Qed.

Lemma tiles_In (l : list MemBlock) :
  forall s e b, tiles s l e -> In b l ->
                s <= offset b /\ 0 < size b /\ offset b + size b <= e.
Proof.
  induction l as [|a r IH]; simpl; intros s e b H Hin.
  - contradiction.
  - destruct H as (Ho & Hp & Hr). destruct Hin as [-> | Hin].
    + apply tiles_le in Hr. lia.
    + destruct (IH _ _ _ Hr Hin) as (H1 & H2 & H3). lia.
Qed.

Lemma tiles_consecutive (l : list MemBlock) :
  forall s e i b b', tiles s l e ->
    nth_error l i = Some b -> nth_error l (S i) = Some b' ->
    offset b' = offset b + size b.
Proof.
  induction l as [|a r IH]; intros s e i b b' H Hb Hb'.
  - destruct i; discriminate.
  - simpl in H. destruct H as (Ho & Hp & Hr). destruct i as [|i].
    + simpl in Hb, Hb'. injection Hb as <-.
      destruct r as [|a' r']; [discriminate|]. injection Hb' as <-.
      simpl in Hr. lia.
    + simpl in Hb. apply (IH _ _ i b b' Hr); assumption.
Qed.

Lemma tiles_positive (l : list MemBlock) :
  forall s e, tiles s l e -> Forall (fun b => 0 < size b) l.
Proof.
  induction l as [|a r IH]; intros s e H.
  - constructor.
  - simpl in H. destruct H as (Ho & Hp & Hr). constructor; [exact Hp|].
    apply (IH _ _ Hr).
Qed.

Lemma tiles_partitions (c : Z) (l : list MemBlock) :
  0 < c -> tiles 0 l c -> partitions c l.
Proof.
  intros Hc H. unfold partitions. repeat split.
  - destruct l as [|b r]; simpl in H; [lia|].
    exists b, r. split; [reflexivity | tauto].
  - intros i b b'. apply (tiles_consecutive _ _ _ _ _ _ H).
  - apply (tiles_positive _ _ _ H).
  - assert (Hne : l <> []) by (intros ->; simpl in H; lia).
    destruct (exists_last Hne) as (front & (b & ->)).
    exists front, b. split; [reflexivity|].
    apply tiles_app in H. destruct H as (m & _ & Hb). simpl in Hb. lia.
Qed.

(** ** The operations keep the chain tiled *)

Lemma tiles_set_is_free (b : MemBlock) (f : bool) (rest : list MemBlock) :
  forall s e, tiles s (b :: rest) e -> tiles s (set_is_free b f :: rest) e.
Proof. intros s e H. exact H. Qed.

Lemma split_block_tiles (curr : MemBlock) (sz : Z) (rest : list MemBlock) :
  forall s e, 0 <= s -> e < SIZE_MAX1 -> 0 < sz < size curr ->
    tiles s (curr :: rest) e -> tiles s (split_block curr sz ++ rest) e.
Proof.
  intros s e Hs He Hsz (Ho & Hp & Hr).
  pose proof (tiles_le _ _ _ Hr) as Hle.
  unfold split_block. simpl.
  rewrite !wrap_small by lia.
  repeat split; try lia.
  replace (s + sz + (size curr - sz)) with (s + size curr) by lia.
  exact Hr.
Qed.

Lemma alloc_scan_tiles (sz : Z) (ok : bool) (l : list MemBlock) :
  forall s e off l', 0 <= s -> e < SIZE_MAX1 -> 0 < sz ->
    tiles s l e -> alloc_scan sz ok l = Some (off, l') -> tiles s l' e.
Proof.
  induction l as [|curr rest IH]; intros s e off l' Hs He Hsz H Hscan.
  - discriminate.
  - simpl in Hscan.
    destruct (negb (is_free curr) || (size curr <? sz)) eqn:Hskip.
    + destruct (alloc_scan sz ok rest) as [[o r']|] eqn:Hrec; [|discriminate].
      injection Hscan as <- <-.
      destruct H as (Ho & Hp & Hr). simpl. repeat split; try assumption.
      apply (IH (s + size curr) e o r'); [lia | assumption | assumption | exact Hr | reflexivity].
    + destruct (sz <? size curr) eqn:Hlt.
      * destruct ok; [|discriminate]. injection Hscan as <- <-.
        apply Z.ltb_lt in Hlt.
        apply (split_block_tiles (set_is_free curr false) sz rest s e Hs He);
          [simpl; lia | exact H].
      * injection Hscan as <- <-. apply tiles_set_is_free. exact H.
Qed.

Lemma merge_next_tiles (curr : MemBlock) (rest : list MemBlock) :
  forall s e c' r', 0 <= s -> e < SIZE_MAX1 ->
    tiles s (curr :: rest) e -> merge_next curr rest = (c', r') ->
    tiles s (c' :: r') e.
Proof.
  intros s e c' r' Hs He H Hm. unfold merge_next in Hm.
  destruct rest as [|next rest'].
  - injection Hm as <- <-. exact H.
  - destruct (is_free next).
    + injection Hm as <- <-.
      destruct H as (Ho & Hp & Hn & Hpn & Hr).
      pose proof (tiles_le _ _ _ Hr) as Hle.
      simpl. rewrite wrap_small by lia. repeat split; try lia.
      replace (s + (size curr + size next)) with (s + size curr + size next) by lia.
      exact Hr.
    + injection Hm as <- <-. exact H.
Qed.

Lemma merge_prev_tiles (prev : option MemBlock) (curr : MemBlock)
  (rest : list MemBlock) :
  forall s e, 0 <= s -> e < SIZE_MAX1 ->
    tiles s (opt_cons prev (curr :: rest)) e ->
    tiles s (merge_prev prev curr rest) e.
Proof.
  intros s e Hs He H. unfold merge_prev.
  destruct prev as [p|]; [|exact H].
  destruct (is_free p); [|exact H].
  simpl in H. destruct H as (Ho & Hp & Hc & Hpc & Hr).
  pose proof (tiles_le _ _ _ Hr) as Hle.
  simpl. rewrite wrap_small by lia. repeat split; try lia.
  replace (s + (size p + size curr)) with (s + size p + size curr) by lia.
  exact Hr.
Qed.

Lemma free_scan_tiles (off : Z) (l : list MemBlock) :
  forall prev s e, 0 <= s -> e < SIZE_MAX1 ->
    tiles s (opt_cons prev l) e -> tiles s (free_scan off prev l) e.
Proof.
  induction l as [|curr rest IH]; intros prev s e Hs He H.
  - exact H.
  - simpl. destruct (negb (offset curr =? off)).
    + destruct prev as [p|]; simpl in *.
      * destruct H as (Ho & Hp & Hr). split; [exact Ho | split; [exact Hp |]].
        apply (IH (Some curr) (s + size p) e); [lia | assumption | exact Hr].
      * apply (IH (Some curr) s e); assumption.
    + destruct (is_free curr); [exact H|].
      destruct (merge_next (set_is_free curr true) rest) as [c' r'] eqn:Hm.
      apply merge_prev_tiles; try assumption.
      destruct prev as [p|]; simpl in *.
      * destruct H as (Ho & Hp & Hr). split; [exact Ho | split; [exact Hp |]].
        assert (Hs' : 0 <= s + size p) by lia.
        apply (merge_next_tiles _ _ _ _ _ _ Hs' He
                 (tiles_set_is_free curr true rest _ _ Hr) Hm).
      * apply (merge_next_tiles _ _ _ _ _ _ Hs He
                 (tiles_set_is_free curr true rest _ _ H) Hm).
Qed.

Lemma shrink_to_tiles (curr : MemBlock) (sz : Z) (ok : bool)
  (rest : list MemBlock) :
  forall s e l', 0 <= s -> e < SIZE_MAX1 -> 0 < sz ->
    tiles s (curr :: rest) e ->
    outcome_chain (shrink_to curr sz ok rest) = Some l' ->
    sz <= size curr -> tiles s l' e.
Proof.
  intros s e l' Hs He Hsz H Hout Hle. unfold shrink_to in Hout.
  destruct (sz <? size curr) eqn:Hlt.
  - apply Z.ltb_lt in Hlt. destruct ok; injection Hout as <-.
    + apply (split_block_tiles curr sz rest s e Hs He); [lia | exact H].
    + exact H.
  - apply Z.ltb_ge in Hlt. injection Hout as <-.
    destruct H as (Ho & Hp & Hr). simpl. repeat split; try assumption.
Qed.

Lemma resize_scan_tiles (off sz : Z) (ok : bool) (l : list MemBlock) :
  forall s e l', 0 <= s -> e < SIZE_MAX1 -> 0 < sz ->
    tiles s l e ->
    outcome_chain (resize_scan off sz ok l) = Some l' -> tiles s l' e.
Proof.
  induction l as [|curr rest IH]; intros s e l' Hs He Hsz H Hout.
  - discriminate.
  - simpl in Hout. destruct (negb (offset curr =? off)).
    + destruct H as (Ho & Hp & Hr).
      destruct (resize_scan off sz ok rest) as [r|r|o|] eqn:Hrec;
        simpl in Hout; try discriminate; injection Hout as <-;
        simpl; repeat split; try assumption;
        (apply (IH (s + size curr) e r);
         [lia | assumption | assumption | exact Hr | reflexivity]).
    + destruct (sz <=? size curr) eqn:Hle.
      * apply Z.leb_le in Hle.
        apply (shrink_to_tiles curr sz ok rest); assumption.
      * destruct rest as [|next rest']; [discriminate|].
        destruct (is_free next && (sz <=? wrap (size curr + size next))) eqn:Hg;
          [|discriminate].
        apply andb_prop in Hg. destruct Hg as [_ Hg]. apply Z.leb_le in Hg.
        destruct H as (Ho & Hp & Hn & Hpn & Hr).
        pose proof (tiles_le _ _ _ Hr) as Hend.
        rewrite wrap_small in Hg, Hout by lia.
        apply (shrink_to_tiles (set_size curr (size curr + size next))
                 sz ok rest' s e l'); try assumption.
        simpl. repeat split; try lia.
        replace (s + (size curr + size next))
          with (s + size curr + size next) by lia.
        exact Hr.
Qed.

(** ** Every operation keeps the ledger well formed *)

Lemma mem_alloc_frame (sz : Z) (ok : bool) (st : pool) :
  memory_pool (snd (mem_alloc sz ok st)) = memory_pool st /\
  pool_size (snd (mem_alloc sz ok st)) = pool_size st /\
  pool_bytes (snd (mem_alloc sz ok st)) = pool_bytes st.
Proof.
  unfold mem_alloc. destruct (sz =? 0).
  - destruct (first_free (block_list st)); simpl; auto.
  - destruct (alloc_scan sz ok (block_list st)) as [[o l]|]; simpl; auto.
Qed.

Lemma mem_alloc_ledger_ok (sz : Z) (ok : bool) (st : pool) :
  0 <= sz -> ledger_ok st -> ledger_ok (snd (mem_alloc sz ok st)).
Proof.
  intros Hsz (Hc & Ht). unfold mem_alloc.
  destruct (sz =? 0) eqn:Hz.
  - destruct (first_free (block_list st)); simpl; split; assumption.
  - apply Z.eqb_neq in Hz.
    destruct (alloc_scan sz ok (block_list st)) as [[o l]|] eqn:Hscan; simpl.
    + split; [exact Hc|]. simpl.
      apply (alloc_scan_tiles sz ok (block_list st) 0 (pool_size st) o l);
        try assumption; lia.
    + split; assumption.
Qed.

Lemma mem_free_ledger_ok (ptr : Z) (st : pool) :
  ledger_ok st -> ledger_ok (mem_free ptr st).
Proof.
  intros (Hc & Ht). unfold mem_free. destruct (ptr =? NULL).
  - split; assumption.
  - split; [exact Hc|]. simpl.
    apply (free_scan_tiles _ (block_list st) None 0 (pool_size st));
      [lia | lia | exact Ht].
Qed.

Lemma with_bytes_ledger_ok (st : pool) (m : Z -> Z) :
  ledger_ok st -> ledger_ok (with_bytes st m).
Proof. intros H. exact H. Qed.

Lemma mem_resize_ledger_ok (ptr sz : Z) (ok : bool) (st : pool) :
  0 <= sz -> ledger_ok st -> ledger_ok (snd (mem_resize ptr sz ok st)).
Proof.
  intros Hsz Hok. unfold mem_resize.
  destruct (ptr =? NULL); [apply mem_alloc_ledger_ok; assumption|].
  destruct (sz =? 0) eqn:Hz; [apply mem_free_ledger_ok; assumption|].
  apply Z.eqb_neq in Hz.
  destruct (resize_scan (offset_of st ptr) sz ok (block_list st))
    as [l|l|old|] eqn:Hscan; simpl.
  - destruct Hok as (Hc & Ht). split; [exact Hc|]. simpl.
    apply (resize_scan_tiles (offset_of st ptr) sz ok (block_list st)
             0 (pool_size st) l); try assumption; try lia.
    rewrite Hscan. reflexivity.
  - destruct Hok as (Hc & Ht). split; [exact Hc|]. simpl.
    apply (resize_scan_tiles (offset_of st ptr) sz ok (block_list st)
             0 (pool_size st) l); try assumption; try lia.
    rewrite Hscan. reflexivity.
  - pose proof (mem_alloc_ledger_ok sz ok st Hsz Hok) as Ha.
    destruct (mem_alloc sz ok st) as [new_ptr st1]. simpl in Ha.
    destruct (new_ptr =? NULL); simpl; [exact Ha|].
    apply mem_free_ledger_ok. apply with_bytes_ledger_ok. exact Ha.
  - exact Hok.
Qed.

Lemma step_ledger_ok (st : pool) (c : call) :
  call_ok c -> ledger_ok st -> ledger_ok (step st c).
Proof.
  destruct c as [sz ok | ptr | ptr sz ok]; simpl; intros Hc Hok.
  - apply mem_alloc_ledger_ok; [apply Hc | exact Hok].
  - apply mem_free_ledger_ok. exact Hok.
  - apply mem_resize_ledger_ok; [apply Hc | exact Hok].
Qed.

Lemma run_ledger_ok (cs : list call) :
  forall st, Forall call_ok cs -> ledger_ok st -> ledger_ok (run cs st).
Proof.
  induction cs as [|c cs IH]; intros st Hcs Hok.
  - exact Hok.
  - inversion Hcs as [|c' cs' Hc Hcs']; subst. simpl.
    apply IH; [exact Hcs'|]. apply step_ledger_ok; assumption.
Qed.

Lemma step_pool_size (st : pool) (c : call) :
  pool_size (step st c) = pool_size st.
Proof.
  destruct c as [sz ok | ptr | ptr sz ok]; simpl.
  - apply mem_alloc_frame.
  - unfold mem_free. destruct (ptr =? NULL); reflexivity.
  - unfold mem_resize. destruct (ptr =? NULL); [apply mem_alloc_frame|].
    destruct (sz =? 0).
    + simpl. unfold mem_free. destruct (ptr =? NULL); reflexivity.
    + destruct (resize_scan (offset_of st ptr) sz ok (block_list st));
        try reflexivity.
      pose proof (mem_alloc_frame sz ok st) as (_ & Hp & _).
      destruct (mem_alloc sz ok st) as [new_ptr st1]. simpl in Hp.
      destruct (new_ptr =? NULL); simpl; [exact Hp|].
      unfold mem_free. destruct (ptr =? NULL); simpl; exact Hp.
Qed.

Lemma run_pool_size (cs : list call) :
  forall st, pool_size (run cs st) = pool_size st.
Proof.
  induction cs as [|c cs IH]; intros st; simpl.
  - reflexivity.
  - unfold run in IH. rewrite IH. apply step_pool_size.
Qed.

Lemma mem_init_ledger_ok (c p : Z) (bytes : Z -> Z) (ok : bool) (st : pool) :
  0 < c < SIZE_MAX1 -> mem_init c p bytes ok = Some st ->
  ledger_ok st /\ pool_size st = c.
Proof.
  intros Hc Hinit. unfold mem_init in Hinit.
  destruct (p =? NULL); [discriminate|]. destruct ok; [|discriminate].
  injection Hinit as <-. unfold ledger_ok. simpl. repeat split; lia.
Qed.

(** C1.  After [mem_init] with a capacity [c] that is a positive [size_t],
    and after any sequence of [mem_alloc], [mem_free] and [mem_resize]
    calls (with any outcome of the bookkeeping [malloc]s), the chain
    partitions [0, c): the first descriptor is at offset 0, every
    descriptor starts where its predecessor ends, every length is
    positive, and the last descriptor ends at [c]. *)
Theorem ledger_partitions_arena
  (c p : Z) (bytes : Z -> Z) (ok : bool) (st0 : pool) (cs : list call) :
  0 < c < SIZE_MAX1 ->
  mem_init c p bytes ok = Some st0 ->
  Forall call_ok cs ->
  partitions c (block_list (run cs st0)).
Proof.
  intros Hc Hinit Hcs.
  destruct (mem_init_ledger_ok c p bytes ok st0 Hc Hinit) as (Hok & Hsz).
  pose proof (run_ledger_ok cs st0 Hcs Hok) as (_ & Ht).
  rewrite run_pool_size, Hsz in Ht.
  apply tiles_partitions; [lia | exact Ht].
Qed.

Lemma ledger_partitions_arena_witness :
  partitions 100
    (block_list
       (run [Allocate 30 true; Allocate 20 true; Release 4096;
             Resize 4126 50 true; Allocate 0 false; Resize 4146 5 false]
            pool100)).
Proof.
  apply (ledger_partitions_arena 100 4096 zero_bytes true pool100).
  - unfold SIZE_MAX1. lia.
  - reflexivity.
  - calls_ok.
Defined.

(** ** Zero-size requests *)

Lemma first_free_split (l1 l2 : list MemBlock) (b : MemBlock) :
  Forall (fun x => is_free x = false) l1 -> is_free b = true ->
  first_free (l1 ++ b :: l2) = Some b.
Proof.
  intros Hused Hb. induction Hused as [|x l1 Hx _ IH]; simpl.
  - rewrite Hb. reflexivity.
  - rewrite Hx. exact IH.
Qed.

Lemma first_free_none (l : list MemBlock) :
  Forall (fun x => is_free x = false) l -> first_free l = None.
Proof.
  intros Hused. induction Hused as [|x l Hx _ IH]; simpl.
  - reflexivity.
  - rewrite Hx. exact IH.
Qed.

(** C7.  [mem_alloc 0] changes nothing in the pool state: every offset,
    length and free flag is as before, so a repeated zero-size call gives
    the same answer.  Its result is the address of the first descriptor in
    chain order that is free; that descriptor stays free. *)
Theorem mem_alloc_zero_frame (st : pool) (ok : bool) :
  snd (mem_alloc 0 ok st) = st /\
  (forall ok', mem_alloc 0 ok' (snd (mem_alloc 0 ok st)) = mem_alloc 0 ok st) /\
  (forall l1 b l2,
      block_list st = l1 ++ b :: l2 ->
      Forall (fun x => is_free x = false) l1 -> is_free b = true ->
      fst (mem_alloc 0 ok st) = ptr_of st (offset b)).
Proof.
  assert (Hsame : snd (mem_alloc 0 ok st) = st).
  { unfold mem_alloc. simpl. destruct (first_free (block_list st)); reflexivity. }
  split; [exact Hsame|]. split.
  - intros ok'. rewrite Hsame. unfold mem_alloc. reflexivity.
  - intros l1 b l2 Hl Hused Hb. unfold mem_alloc. simpl.
    rewrite Hl, (first_free_split l1 l2 b Hused Hb). reflexivity.
Qed.

Lemma mem_alloc_zero_frame_witness :
  fst (mem_alloc 0 true (snd (mem_alloc 30 true pool100))) = 4096 + 30.
Proof.
  destruct (mem_alloc_zero_frame (snd (mem_alloc 30 true pool100)) true)
    as (_ & _ & H).
  rewrite (H [mkBlock 0 30 false] (mkBlock 30 70 true) []).
  - reflexivity.
  - reflexivity.
  - repeat constructor.
  - reflexivity.
Defined.

(** C10.  When the chain holds no free descriptor, [mem_alloc 0] returns
    [NULL] (and leaves the pool as it is). *)
Theorem mem_alloc_zero_null (st : pool) (ok : bool) :
  Forall (fun b => is_free b = false) (block_list st) ->
  mem_alloc 0 ok st = (NULL, st).
Proof.
  intros Hused. unfold mem_alloc. simpl.
  rewrite (first_free_none _ Hused). reflexivity.
Qed.

(** The arena of [pool100] handed out in one piece: no free descriptor. *)
Lemma mem_alloc_zero_null_witness :
  block_list (snd (mem_alloc 100 true pool100)) = [mkBlock 0 100 false] /\
  fst (mem_alloc 0 true (snd (mem_alloc 100 true pool100))) = NULL.
Proof.
  split; [reflexivity|].
  rewrite (mem_alloc_zero_null (snd (mem_alloc 100 true pool100)) true).
  - reflexivity.
  - repeat constructor.
Defined.

(** ** The two shortcuts of [mem_resize] *)

(** C6, as the code has it.  [mem_resize NULL n] is [mem_alloc n] for
    every [n], and [mem_resize x 0] is [mem_free x] followed by a [NULL]
    result for every [x] other than [NULL]. *)
Theorem mem_resize_shortcuts :
  (forall n ok st, mem_resize NULL n ok st = mem_alloc n ok st) /\
  (forall x ok st, x <> NULL -> mem_resize x 0 ok st = (NULL, mem_free x st)).
Proof.
  split.
  - intros n ok st. reflexivity.
  - intros x ok st Hx. unfold mem_resize.
    apply Z.eqb_neq in Hx. rewrite Hx. reflexivity.
Qed.

Lemma mem_resize_shortcuts_witness :
  mem_resize 4096 0 true (snd (mem_alloc 30 true pool100))
  = (NULL, mem_free 4096 (snd (mem_alloc 30 true pool100))).
Proof.
  apply (proj2 mem_resize_shortcuts). discriminate.
Defined.

(** The null pointer is tested first: [mem_resize NULL 0] is [mem_alloc 0],
    which answers with the first free descriptor, not with [NULL]. *)
Lemma mem_resize_null_zero_not_release :
  fst (mem_resize NULL 0 true pool100) = 4096 /\
  mem_resize NULL 0 true pool100 <> (NULL, mem_free NULL pool100).
Proof.
  split; [reflexivity|].
  intros H. apply (f_equal fst) in H. discriminate H.
Qed.

(** ** First fit *)

Lemma skip_is_not_fits (sz : Z) (b : MemBlock) :
  negb (is_free b) || (size b <? sz) = negb (fits sz b).
Proof.
  unfold fits. rewrite negb_andb, Z.ltb_antisym. reflexivity.
Qed.

Lemma alloc_scan_none (sz : Z) (ok : bool) (l : list MemBlock) :
  Forall (fun x => fits sz x = false) l -> alloc_scan sz ok l = None.
Proof.
  intros Hno. induction Hno as [|x l Hx _ IH]; simpl.
  - reflexivity.
  - rewrite skip_is_not_fits, Hx, IH. reflexivity.
Qed.

Lemma alloc_scan_split (sz : Z) (ok : bool) (l1 l2 : list MemBlock)
  (b : MemBlock) :
  Forall (fun x => fits sz x = false) l1 -> fits sz b = true ->
  alloc_scan sz ok (l1 ++ b :: l2) =
  if sz <? size b then
    if ok then Some (offset b, l1 ++ split_block (set_is_free b false) sz ++ l2)
    else None
  else Some (offset b, l1 ++ set_is_free b false :: l2).
Proof.
  intros Hno Hb. induction Hno as [|x l1 Hx _ IH]; simpl.
  - rewrite skip_is_not_fits, Hb. reflexivity.
  - rewrite skip_is_not_fits, Hx, IH. simpl.
    destruct (sz <? size b); [destruct ok|]; reflexivity.
Qed.

(** C3.  For a request of [sz > 0] bytes on a well-formed ledger,
    [mem_alloc] serves the first descriptor in chain order that is free
    and at least [sz] long and returns its address.  On an exact fit the
    descriptor is marked used; on a larger fit it is cut to [sz] and marked
    used, and a free descriptor for the remainder follows it immediately;
    when the bookkeeping [malloc] of that split fails, or when no
    descriptor fits, the result is [NULL] and nothing changes. *)
Theorem mem_alloc_first_fit (st : pool) (sz : Z) (ok : bool) :
  0 < sz -> ledger_ok st ->
  (forall l1 b l2,
      block_list st = l1 ++ b :: l2 ->
      Forall (fun x => fits sz x = false) l1 -> fits sz b = true ->
      (size b = sz ->
       mem_alloc sz ok st =
       (ptr_of st (offset b),
        with_blocks st (l1 ++ mkBlock (offset b) sz false :: l2))) /\
      (sz < size b -> ok = true ->
       mem_alloc sz ok st =
       (ptr_of st (offset b),
        with_blocks st (l1 ++ mkBlock (offset b) sz false
                           :: mkBlock (offset b + sz) (size b - sz) true
                           :: l2))) /\
      (sz < size b -> ok = false -> mem_alloc sz ok st = (NULL, st))) /\
  (Forall (fun x => fits sz x = false) (block_list st) ->
   mem_alloc sz ok st = (NULL, st)).
Proof.
  intros Hsz (Hc & Ht).
  assert (Hnz : (sz =? 0) = false) by (apply Z.eqb_neq; lia).
  split.
  - intros l1 b l2 Hl Hno Hb.
    assert (Hin : In b (block_list st)).
    { rewrite Hl. apply in_or_app. right. left. reflexivity. }
    destruct (tiles_In _ _ _ _ Ht Hin) as (Hlo & Hpos & Hhi).
    unfold mem_alloc. rewrite Hnz, Hl, (alloc_scan_split sz ok l1 l2 b Hno Hb).
    repeat split.
    + intros Heq. rewrite <- Heq, Z.ltb_irrefl.
      unfold set_is_free. reflexivity.
    + intros Hlt ->. apply Z.ltb_lt in Hlt. rewrite Hlt.
      apply Z.ltb_lt in Hlt.
      unfold split_block. simpl. rewrite !wrap_small by lia. reflexivity.
    + intros Hlt ->. apply Z.ltb_lt in Hlt. rewrite Hlt. reflexivity.
  - intros Hno. unfold mem_alloc.
    rewrite Hnz, (alloc_scan_none sz ok _ Hno). reflexivity.
Qed.

Lemma pool100_ledger_ok : ledger_ok pool100.
Proof.
  unfold ledger_ok, pool100, SIZE_MAX1. simpl. repeat split; lia.
Qed.

(** Scenario A of the specification: after [a = Allocate 30],
    [Allocate 20] and [Release a], a request for 10 bytes reuses offset 0
    and leaves a free descriptor of length 20 at offset 10. *)
Lemma mem_alloc_first_fit_witness :
  mem_alloc 10 true
    (run [Allocate 30 true; Allocate 20 true; Release 4096] pool100)
  = (4096,
     mkPool 4096 100
       [mkBlock 0 10 false; mkBlock 10 20 true;
        mkBlock 30 20 false; mkBlock 50 50 true] zero_bytes).
Proof.
  assert (Hok : ledger_ok
                  (run [Allocate 30 true; Allocate 20 true; Release 4096]
                       pool100)).
  { apply run_ledger_ok; [calls_ok | exact pool100_ledger_ok]. }
  destruct (mem_alloc_first_fit _ 10 true ltac:(lia) Hok) as (H & _).
  destruct (H [] (mkBlock 0 30 true)
              [mkBlock 30 20 false; mkBlock 50 50 true]) as (_ & Hsplit & _).
  - reflexivity.
  - constructor.
  - reflexivity.
  - rewrite Hsplit; [reflexivity | simpl; lia | reflexivity].
Defined.

(** ** Release *)

Lemma with_blocks_same (st : pool) : with_blocks st (block_list st) = st.
Proof. destruct st. reflexivity. Qed.

Lemma free_scan_no_match (off : Z) (l : list MemBlock) :
  forall prev, find_block off l = None -> free_scan off prev l = opt_cons prev l.
Proof.
  induction l as [|curr rest IH]; intros prev Hfind; simpl in *.
  - reflexivity.
  - destruct (offset curr =? off); [discriminate|]. simpl.
    rewrite (IH (Some curr) Hfind). reflexivity.
Qed.

Lemma free_scan_already_free (off : Z) (l : list MemBlock) (b : MemBlock) :
  forall prev, find_block off l = Some b -> is_free b = true ->
               free_scan off prev l = opt_cons prev l.
Proof.
  induction l as [|curr rest IH]; intros prev Hfind Hb; simpl in *.
  - discriminate.
  - destruct (offset curr =? off); simpl.
    + injection Hfind as ->. rewrite Hb. reflexivity.
    + rewrite (IH (Some curr) Hfind Hb). reflexivity.
Qed.

Lemma free_scan_head (off : Z) (b : MemBlock) (after : list MemBlock) :
  forall prev, offset b = off -> is_free b = false ->
    free_scan off prev (b :: after) =
    let (b', after') := merge_next (set_is_free b true) after in
    merge_prev prev b' after'.
Proof.
  intros prev Ho Hb. simpl.
  apply Z.eqb_eq in Ho. rewrite Ho, Hb. reflexivity.
Qed.

Lemma free_scan_skip (off : Z) (front l : list MemBlock) (p : MemBlock) :
  forall prev, Forall (fun x => offset x <> off) (front ++ [p]) ->
    free_scan off prev (front ++ p :: l) =
    opt_cons prev (front ++ free_scan off (Some p) l).
Proof.
  induction front as [|x front IH]; intros prev Hno; simpl in *.
  - inversion Hno as [|? ? Hp _]; subst.
    apply Z.eqb_neq in Hp. rewrite Hp. reflexivity.
  - inversion Hno as [|? ? Hx Hrest]; subst.
    apply Z.eqb_neq in Hx. rewrite Hx. simpl.
    rewrite (IH (Some x) Hrest). reflexivity.
Qed.

Lemma merge_next_absorb (b : MemBlock) (after : list MemBlock) :
  forall s e, 0 <= s -> e < SIZE_MAX1 -> tiles s (b :: after) e ->
              merge_next b after = absorb_next b after.
Proof.
  intros s e Hs He H. unfold merge_next, absorb_next.
  destruct after as [|n t]; [reflexivity|].
  destruct (is_free n); [|reflexivity].
  destruct H as (Ho & Hp & Hn & Hpn & Hr).
  pose proof (tiles_le _ _ _ Hr) as Hle.
  rewrite wrap_small by lia. reflexivity.
Qed.

Lemma merge_prev_absorb (p b : MemBlock) (after : list MemBlock) :
  forall s e, 0 <= s -> e < SIZE_MAX1 -> tiles s (p :: b :: after) e ->
              merge_prev (Some p) b after = absorb_into_prev p b after.
Proof.
  intros s e Hs He H. unfold merge_prev, absorb_into_prev, set_size.
  destruct (is_free p); [|reflexivity].
  destruct H as (Ho & Hp & Hn & Hpn & Hr).
  pose proof (tiles_le _ _ _ Hr) as Hle.
  rewrite wrap_small by lia. reflexivity.
Qed.

Lemma find_block_app (off : Z) (l1 l2 : list MemBlock) :
  Forall (fun x => offset x <> off) l1 ->
  find_block off (l1 ++ l2) = find_block off l2.
Proof.
  intros Hno. induction Hno as [|x l1 Hx _ IH]; simpl.
  - reflexivity.
  - apply Z.eqb_neq in Hx. rewrite Hx. exact IH.
Qed.

Lemma find_block_none (off : Z) (l : list MemBlock) :
  Forall (fun x => offset x <> off) l -> find_block off l = None.
Proof.
  intros Hno. rewrite <- (app_nil_r l). rewrite (find_block_app off l [] Hno).
  reflexivity.
Qed.

Lemma find_block_split (off : Z) (l : list MemBlock) (b : MemBlock) :
  find_block off l = Some b ->
  exists front after,
    l = front ++ b :: after /\
    Forall (fun x => offset x <> off) front /\ offset b = off.
Proof.
  induction l as [|curr rest IH]; simpl; intros Hfind.
  - discriminate.
  - destruct (offset curr =? off) eqn:Heq.
    + injection Hfind as ->. apply Z.eqb_eq in Heq.
      exists [], rest. repeat split; [constructor | exact Heq].
    + destruct (IH Hfind) as (front & after & -> & Hno & Ho).
      apply Z.eqb_neq in Heq.
      exists (curr :: front), after. repeat split; [|exact Ho].
      constructor; assumption.
Qed.

(** Past the end of a descriptor no later descriptor starts at or before
    its offset. *)
Lemma tiles_after_offsets (l : list MemBlock) :
  forall s e off, tiles s l e -> off < s ->
                  Forall (fun x => offset x <> off) l.
Proof.
  induction l as [|a r IH]; intros s e off H Hlt.
  - constructor.
  - destruct H as (Ho & Hp & Hr). constructor; [lia|].
    apply (IH (s + size a) e off Hr). lia.
Qed.

(** What [mem_free] does to the chain when the address matches the used
    descriptor [b], with [front] before it and [after] behind it. *)
Lemma free_scan_merges (off : Z) (front after : list MemBlock) (b : MemBlock) :
  forall s e, 0 <= s -> e < SIZE_MAX1 ->
    tiles s (front ++ b :: after) e ->
    Forall (fun x => offset x <> off) front ->
    offset b = off -> is_free b = false ->
    free_scan off None (front ++ b :: after) =
    let (b', after') := absorb_next (mkBlock (offset b) (size b) true) after in
    match rev front with
    | [] => b' :: after'
    | p :: _ => removelast front ++ absorb_into_prev p b' after'
    end.
Proof.
  intros s e Hs He Ht Hno Ho Hb.
  destruct (rev front) as [|p rfront] eqn:Hrev.
  - assert (front = []) as ->.
    { rewrite <- (rev_involutive front), Hrev. reflexivity. }
    simpl app. rewrite (free_scan_head off b after None Ho Hb).
    rewrite (merge_next_absorb (set_is_free b true) after s e Hs He Ht).
    unfold set_is_free.
    destruct (absorb_next (mkBlock (offset b) (size b) true) after).
    reflexivity.
  - assert (Hfront : front = rev rfront ++ [p]).
    { rewrite <- (rev_involutive front), Hrev. reflexivity. }
    rewrite Hfront, removelast_last, <- app_assoc. simpl app.
    rewrite Hfront in Hno, Ht.
    rewrite (free_scan_skip off (rev rfront) (b :: after) p None Hno).
    rewrite (free_scan_head off b after (Some p) Ho Hb). simpl opt_cons.
    rewrite <- app_assoc in Ht. simpl app in Ht.
    apply tiles_app in Ht. destruct Ht as (m & Hm & Ht).
    pose proof (tiles_le _ _ _ Hm) as Hsm.
    assert (Ht' := Ht). destruct Ht' as (Hpo & Hpp & Htb).
    rewrite (merge_next_absorb (set_is_free b true) after (m + size p) e
               ltac:(lia) He Htb).
    unfold set_is_free.
    assert (Hshape : forall b' after',
               absorb_next (mkBlock (offset b) (size b) true) after = (b', after') ->
               tiles m (p :: b' :: after') e).
    { intros b' after' Hab. unfold absorb_next in Hab.
      destruct after as [|n t].
      - injection Hab as <- <-. exact Ht.
      - destruct (is_free n).
        + injection Hab as <- <-.
          destruct Htb as (Hbo & Hbp & Hn & Hnp & Hr). simpl.
          repeat split; try lia.
          replace (m + size p + (size b + size n))
            with (m + size p + size b + size n) by lia.
          exact Hr.
        + injection Hab as <- <-. exact Ht. }
    destruct (absorb_next (mkBlock (offset b) (size b) true) after)
      as [b' after'] eqn:Hab.
    cbv beta iota.
    rewrite <- (merge_prev_absorb p b' after' m e ltac:(lia) He
               (Hshape b' after' eq_refl)).
    reflexivity.
Qed.

Lemma tiles_before_offsets (l1 l2 : list MemBlock) (b : MemBlock) :
  forall s e, tiles s (l1 ++ b :: l2) e ->
              Forall (fun x => offset x <> offset b) l1.
Proof.
  induction l1 as [|x l1 IH]; intros s e H.
  - constructor.
  - simpl in H. destruct H as (Ho & Hp & Hr). constructor.
    + assert (Hin : In b (l1 ++ b :: l2)).
      { apply in_or_app. right. left. reflexivity. }
      destruct (tiles_In _ _ _ _ Hr Hin) as (Hlo & _). lia.
    + apply (IH _ _ Hr).
Qed.

Lemma mem_free_no_match (st : pool) (a : Z) :
  find_block (offset_of st a) (block_list st) = None -> mem_free a st = st.
Proof.
  intros Hfind. unfold mem_free. destruct (a =? NULL); [reflexivity|].
  rewrite (free_scan_no_match _ _ None Hfind). apply with_blocks_same.
Qed.

Lemma mem_free_already_free (st : pool) (a : Z) (b : MemBlock) :
  find_block (offset_of st a) (block_list st) = Some b -> is_free b = true ->
  mem_free a st = st.
Proof.
  intros Hfind Hb. unfold mem_free. destruct (a =? NULL); [reflexivity|].
  rewrite (free_scan_already_free _ _ b None Hfind Hb). apply with_blocks_same.
Qed.

Lemma mem_free_head (st : pool) (a : Z) (b b' : MemBlock)
  (after after' : list MemBlock) :
  a <> NULL -> ledger_ok st ->
  offset b = offset_of st a -> is_free b = false ->
  absorb_next (mkBlock (offset b) (size b) true) after = (b', after') ->
  block_list st = b :: after ->
  mem_free a st = with_blocks st (b' :: after').
Proof.
  intros Ha (Hc & Ht) Ho Hb Hab Hl. unfold mem_free.
  apply Z.eqb_neq in Ha. rewrite Ha. rewrite Hl in Ht |- *.
  pose proof (free_scan_merges _ [] after b 0 (pool_size st)
                ltac:(lia) ltac:(lia) Ht ltac:(constructor) Ho Hb) as Hm.
  simpl app in Hm. rewrite Hm, Hab. reflexivity.
Qed.

Lemma mem_free_inner (st : pool) (a : Z) (p b b' : MemBlock)
  (front after after' : list MemBlock) :
  a <> NULL -> ledger_ok st ->
  offset b = offset_of st a -> is_free b = false ->
  absorb_next (mkBlock (offset b) (size b) true) after = (b', after') ->
  block_list st = front ++ p :: b :: after ->
  mem_free a st = with_blocks st (front ++ absorb_into_prev p b' after').
Proof.
  intros Ha (Hc & Ht) Ho Hb Hab Hl. unfold mem_free.
  apply Z.eqb_neq in Ha. rewrite Ha. rewrite Hl in Ht |- *.
  assert (Hl' : front ++ p :: b :: after = (front ++ [p]) ++ b :: after).
  { rewrite <- app_assoc. reflexivity. }
  rewrite Hl' in Ht |- *.
  pose proof (tiles_before_offsets _ _ _ _ _ Ht) as Hno. rewrite Ho in Hno.
  rewrite (free_scan_merges _ (front ++ [p]) after b 0 (pool_size st)
             ltac:(lia) ltac:(lia) Ht Hno Ho Hb).
  rewrite Hab, rev_app_distr, removelast_last. reflexivity.
Qed.

Lemma absorb_next_shape (b b' : MemBlock) (after after' : list MemBlock) :
  forall s e, tiles s (b :: after) e -> absorb_next b after = (b', after') ->
    offset b' = offset b /\ is_free b' = is_free b /\ size b <= size b' /\
    Forall (fun x => offset x <> offset b) after'.
Proof.
  intros s e (Ho & Hp & Hr) Hab. unfold absorb_next in Hab.
  assert (Hafter : Forall (fun x => offset x <> offset b) after).
  { apply (tiles_after_offsets after (s + size b) e); [exact Hr | lia]. }
  destruct after as [|n t].
  - injection Hab as <- <-. repeat split; [lia | constructor].
  - destruct (is_free n).
    + injection Hab as <- <-. destruct Hr as (_ & Hn & _). simpl.
      repeat split; [lia|]. inversion Hafter; assumption.
    + injection Hab as <- <-. repeat split; [lia | exact Hafter].
Qed.

Lemma mem_free_idempotent (st : pool) (a : Z) :
  ledger_ok st -> mem_free a (mem_free a st) = mem_free a st.
Proof.
  intros Hok.
  destruct (Z.eq_dec a NULL) as [-> | Ha]; [reflexivity|].
  destruct (find_block (offset_of st a) (block_list st)) as [b|] eqn:Hfind.
  2:{ rewrite (mem_free_no_match st a Hfind). apply mem_free_no_match; exact Hfind. }
  destruct (is_free b) eqn:Hb.
  { rewrite (mem_free_already_free st a b Hfind Hb).
    apply (mem_free_already_free st a b Hfind Hb). }
  destruct (find_block_split _ _ _ Hfind) as (front & after & Hl & Hno & Ho).
  destruct (absorb_next (mkBlock (offset b) (size b) true) after)
    as [b' after'] eqn:Hab.
  assert (Ht := proj2 Hok). rewrite Hl in Ht.
  apply tiles_app in Ht. destruct Ht as (m & Hfront & Hb_after).
  destruct (absorb_next_shape (mkBlock (offset b) (size b) true) b' after after'
              m (pool_size st) Hb_after Hab) as (Hbo & Hbf & _ & Hafter').
  simpl in Hbo, Hbf, Hafter'.
  destruct (rev front) as [|p rfront] eqn:Hrev.
  - assert (front = []) as ->.
    { rewrite <- (rev_involutive front), Hrev. reflexivity. }
    rewrite (mem_free_head st a b b' after after' Ha Hok Ho Hb Hab Hl).
    apply (mem_free_already_free _ a b'); [|exact Hbf].
    simpl. rewrite Hbo. apply Z.eqb_eq in Ho.
    unfold offset_of in *. simpl. rewrite Ho. reflexivity.
  - assert (Hfr : front = rev rfront ++ [p]).
    { rewrite <- (rev_involutive front), Hrev. reflexivity. }
    rewrite Hfr, <- app_assoc in Hl. simpl app in Hl.
    rewrite (mem_free_inner st a p b b' (rev rfront) after after'
               Ha Hok Ho Hb Hab Hl).
    rewrite Hfr in Hno. apply Forall_app in Hno. destruct Hno as (Hno1 & Hno2).
    inversion Hno2 as [|? ? Hp _]; subst.
    unfold absorb_into_prev. destruct (is_free p) eqn:Hpf.
    + apply mem_free_no_match. simpl.
      change (offset_of (with_blocks st _) a) with (offset_of st a).
      rewrite (find_block_app _ _ _ Hno1). simpl.
      apply Z.eqb_neq in Hp. rewrite Hp.
      apply find_block_none. rewrite <- Ho. exact Hafter'.
    + apply (mem_free_already_free _ a b'); [|exact Hbf]. simpl.
      change (offset_of (with_blocks st _) a) with (offset_of st a).
      rewrite (find_block_app _ _ _ Hno1). simpl.
      apply Z.eqb_neq in Hp. rewrite Hp.
      rewrite Hbo, Ho, Z.eqb_refl. reflexivity.
Qed.

(** C4.  [mem_free a] leaves the pool as it is when [a] is [NULL], when no
    descriptor starts at the offset of [a], and when the descriptor found
    there is already free.  Otherwise, on a well-formed ledger, the
    descriptor [b] found is marked free, absorbs the next descriptor when
    that one is free, and is then absorbed by the previous descriptor [p]
    when that one is free.  A second release of the same address changes
    nothing. *)
Theorem mem_free_cases (st : pool) (a : Z) :
  (a = NULL -> mem_free a st = st) /\
  (find_block (offset_of st a) (block_list st) = None -> mem_free a st = st) /\
  (forall b, find_block (offset_of st a) (block_list st) = Some b ->
             is_free b = true -> mem_free a st = st) /\
  (forall b after b' after',
      a <> NULL -> ledger_ok st ->
      offset b = offset_of st a -> is_free b = false ->
      absorb_next (mkBlock (offset b) (size b) true) after = (b', after') ->
      (block_list st = b :: after ->
       mem_free a st = with_blocks st (b' :: after')) /\
      (forall front p,
          block_list st = front ++ p :: b :: after ->
          mem_free a st =
          with_blocks st (front ++ absorb_into_prev p b' after'))) /\
  (ledger_ok st -> mem_free a (mem_free a st) = mem_free a st).
Proof.
  split; [|split; [|split; [|split]]].
  - intros ->. reflexivity.
  - apply mem_free_no_match.
  - apply mem_free_already_free.
  - intros b after b' after' Ha Hok Ho Hb Hab. split.
    + apply (mem_free_head st a b b' after after'); assumption.
    + intros front p. apply (mem_free_inner st a p b b' front after after');
        assumption.
  - apply mem_free_idempotent.
Qed.

(** Full coalescing, as in scenario B of the specification: releasing
    both blocks leaves one free descriptor over the whole arena. *)
Lemma mem_free_cases_witness :
  mem_free 4126
    (run [Allocate 30 true; Allocate 20 true; Release 4096] pool100)
  = mkPool 4096 100 [mkBlock 0 100 true] zero_bytes.
Proof.
  assert (Hok : ledger_ok
                  (run [Allocate 30 true; Allocate 20 true; Release 4096]
                       pool100)).
  { apply run_ledger_ok; [calls_ok | exact pool100_ledger_ok]. }
  destruct (mem_free_cases
              (run [Allocate 30 true; Allocate 20 true; Release 4096] pool100)
              4126) as (_ & _ & _ & H & _).
  destruct (H (mkBlock 30 20 false) [mkBlock 50 50 true]
              (mkBlock 30 70 true) []) as (_ & Hinner).
  - discriminate.
  - exact Hok.
  - reflexivity.
  - reflexivity.
  - reflexivity.
  - rewrite (Hinner [] (mkBlock 0 30 true)); reflexivity.
Defined.

(** ** Resize in place *)

Lemma resize_scan_skip (off sz : Z) (ok : bool) (front l : list MemBlock) :
  Forall (fun x => offset x <> off) front ->
  resize_scan off sz ok (front ++ l) =
  fold_right outcome_cons (resize_scan off sz ok l) front.
Proof.
  intros Hno. induction Hno as [|x front Hx _ IH]; simpl.
  - reflexivity.
  - apply Z.eqb_neq in Hx. rewrite Hx, IH. reflexivity.
Qed.

Lemma outcome_cons_same (front l : list MemBlock) :
  fold_right outcome_cons (RSame l) front = RSame (front ++ l).
Proof.
  induction front as [|x front IH]; simpl; [|rewrite IH]; reflexivity.
Qed.

Lemma outcome_cons_null (front l : list MemBlock) :
  fold_right outcome_cons (RNull l) front = RNull (front ++ l).
Proof.
  induction front as [|x front IH]; simpl; [|rewrite IH]; reflexivity.
Qed.

Lemma outcome_cons_move (front : list MemBlock) (s : Z) :
  fold_right outcome_cons (RMove s) front = RMove s.
Proof.
  induction front as [|x front IH]; simpl; [|rewrite IH]; reflexivity.
Qed.

(** The locked part of [mem_resize] at the descriptor it found. *)
Lemma resize_scan_found (st : pool) (a sz : Z) (ok : bool)
  (front after : list MemBlock) (b : MemBlock) :
  ledger_ok st -> block_list st = front ++ b :: after ->
  offset b = offset_of st a ->
  resize_scan (offset_of st a) sz ok (block_list st) =
  fold_right outcome_cons
    (resize_scan (offset_of st a) sz ok (b :: after)) front /\
  0 <= offset b /\ 0 < size b /\
  tiles (offset b) (b :: after) (pool_size st) /\ pool_size st < SIZE_MAX1.
Proof.
  intros (Hc & Ht) Hl Ho. rewrite Hl in Ht |- *.
  pose proof (tiles_before_offsets _ _ _ _ _ Ht) as Hno. rewrite Ho in Hno.
  split; [apply resize_scan_skip; exact Hno|].
  apply tiles_app in Ht. destruct Ht as (m & Hfront & Hb).
  pose proof (tiles_le _ _ _ Hfront) as Hm.
  assert (Hb' := Hb). destruct Hb' as (Hbo & Hbp & _).
  rewrite Hbo. split; [lia | split; [lia | split; [exact Hb | lia]]].
Qed.

(** C5, as the code has it.  For a non-null address [a] whose descriptor
    [b] is in use and a new size [sz > 0], on a well-formed ledger:
    when [size b >= sz] the descriptor is cut to [sz] in place, a free
    descriptor for the leftover (if any) follows it, and the result is
    [a]; when [size b < sz], the next descriptor [n] is free and
    [size b + size n >= sz], the two are merged, a free descriptor for
    what exceeds [sz] (if anything) follows, and the result is [a].  In
    both cases a split happens only when its bookkeeping [malloc]
    succeeds; when it fails the result is [NULL], with the pool unchanged
    on the shrink path and the two descriptors left merged on the grow
    path. *)
Theorem mem_resize_in_place (st : pool) (a sz : Z) (ok : bool)
  (front after : list MemBlock) (b : MemBlock) :
  a <> NULL -> 0 < sz -> ledger_ok st ->
  block_list st = front ++ b :: after ->
  offset b = offset_of st a -> is_free b = false ->
  (sz = size b -> mem_resize a sz ok st = (a, st)) /\
  (sz < size b -> ok = true ->
   mem_resize a sz ok st =
   (a, with_blocks st (front ++ mkBlock (offset b) sz false
                             :: mkBlock (offset b + sz) (size b - sz) true
                             :: after))) /\
  (sz < size b -> ok = false -> mem_resize a sz ok st = (NULL, st)) /\
  (forall n t,
      size b < sz -> after = n :: t -> is_free n = true ->
      (sz = size b + size n ->
       mem_resize a sz ok st =
       (a, with_blocks st
             (front ++ mkBlock (offset b) (size b + size n) false :: t))) /\
      (sz < size b + size n -> ok = true ->
       mem_resize a sz ok st =
       (a, with_blocks st
             (front ++ mkBlock (offset b) sz false
                    :: mkBlock (offset b + sz) (size b + size n - sz) true
                    :: t))) /\
      (sz < size b + size n -> ok = false ->
       mem_resize a sz ok st =
       (NULL, with_blocks st
                (front ++ mkBlock (offset b) (size b + size n) false :: t)))).
Proof.
  intros Ha Hsz Hok Hl Ho Hb.
  destruct (resize_scan_found st a sz ok front after b Hok Hl Ho)
    as (Hscan & Hlo & Hpos & Ht & Hc).
  apply Z.eqb_neq in Ha.
  assert (Hnz : (sz =? 0) = false) by (apply Z.eqb_neq; lia).
  assert (Hhere : (offset b =? offset_of st a) = true) by (apply Z.eqb_eq; exact Ho).
  unfold mem_resize. rewrite Ha, Hnz, Hscan. clear Hscan.
  simpl resize_scan. rewrite Hhere. simpl negb. cbv iota.
  pose proof (tiles_le _ _ _ (proj2 (proj2 Ht))) as Hend.
  split; [|split; [|split]].
  - intros ->. rewrite Z.leb_refl. unfold shrink_to. rewrite Z.ltb_irrefl.
    rewrite outcome_cons_same, <- Hl, with_blocks_same. reflexivity.
  - intros Hlt ->.
    assert (Hle : (sz <=? size b) = true) by (apply Z.leb_le; lia).
    apply Z.ltb_lt in Hlt. rewrite Hle. unfold shrink_to. rewrite Hlt.
    apply Z.ltb_lt in Hlt.
    rewrite outcome_cons_same. unfold split_block, set_size. simpl.
    rewrite !wrap_small, Hb by lia. reflexivity.
  - intros Hlt ->.
    assert (Hle : (sz <=? size b) = true) by (apply Z.leb_le; lia).
    apply Z.ltb_lt in Hlt. rewrite Hle. unfold shrink_to. rewrite Hlt.
    rewrite outcome_cons_null, <- Hl, with_blocks_same. reflexivity.
  - intros n t Hgt -> Hn.
    assert (Hle : (sz <=? size b) = false) by (apply Z.leb_gt; lia).
    rewrite Hle, Hn. simpl andb.
    destruct Ht as (_ & _ & Hno & Hnp & Hr).
    pose proof (tiles_le _ _ _ Hr) as Hend'.
    rewrite !wrap_small by lia.
    split; [|split].
    + intros ->. rewrite Z.leb_refl. unfold shrink_to. simpl size.
      rewrite Z.ltb_irrefl, outcome_cons_same. unfold set_size. rewrite Hb.
      reflexivity.
    + intros Hlt ->.
      assert (Hle' : (sz <=? size b + size n) = true) by (apply Z.leb_le; lia).
      rewrite Hle'. unfold shrink_to. simpl size.
      apply Z.ltb_lt in Hlt. rewrite Hlt. apply Z.ltb_lt in Hlt.
      rewrite outcome_cons_same. unfold split_block, set_size. simpl.
      rewrite !wrap_small, Hb by lia. reflexivity.
    + intros Hlt ->.
      assert (Hle' : (sz <=? size b + size n) = true) by (apply Z.leb_le; lia).
      rewrite Hle'. unfold shrink_to. simpl size.
      apply Z.ltb_lt in Hlt. rewrite Hlt.
      rewrite outcome_cons_null. unfold set_size. rewrite Hb. reflexivity.
Qed.

Lemma mem_resize_in_place_witness :
  mem_resize 4096 50 true (snd (mem_alloc 30 true pool100))
  = (4096,
     mkPool 4096 100 [mkBlock 0 50 false; mkBlock 50 50 true] zero_bytes).
Proof.
  assert (Hok : ledger_ok (snd (mem_alloc 30 true pool100))).
  { apply mem_alloc_ledger_ok; [lia | exact pool100_ledger_ok]. }
  destruct (mem_resize_in_place (snd (mem_alloc 30 true pool100)) 4096 50 true
              [] [mkBlock 30 70 true] (mkBlock 0 30 false))
    as (_ & _ & _ & Hgrow).
  - discriminate.
  - lia.
  - exact Hok.
  - reflexivity.
  - reflexivity.
  - reflexivity.
  - destruct (Hgrow (mkBlock 30 70 true) []) as (_ & Hsplit & _).
    + simpl. lia.
    + reflexivity.
    + reflexivity.
    + rewrite Hsplit; [reflexivity | simpl; lia | reflexivity].
Defined.

(** When the bookkeeping [malloc] of the split fails, the answer is [NULL]
    and not the address passed in: on the shrink path with the chain
    untouched, on the grow path with the merge already done. *)
Lemma mem_resize_split_malloc_failure :
  let st := snd (mem_alloc 30 true pool100) in
  block_list st = [mkBlock 0 30 false; mkBlock 30 70 true] /\
  offset_of st 4096 = 0 /\
  fst (mem_resize 4096 10 false st) = NULL /\
  block_list (snd (mem_resize 4096 10 false st)) = block_list st /\
  fst (mem_resize 4096 50 false st) = NULL /\
  block_list (snd (mem_resize 4096 50 false st)) = [mkBlock 0 100 false] /\
  fst (mem_resize 4096 10 false st) <> 4096.
Proof.
  repeat split. discriminate.
Qed.

(** ** A failed resize keeps the old block *)

Lemma alloc_scan_offset (sz : Z) (ok : bool) (l : list MemBlock) :
  forall off l', alloc_scan sz ok l = Some (off, l') ->
                 exists x, In x l /\ offset x = off.
Proof.
  induction l as [|curr rest IH]; intros off l' Hscan; simpl in Hscan.
  - discriminate.
  - destruct (negb (is_free curr) || (size curr <? sz)).
    + destruct (alloc_scan sz ok rest) as [[o r']|] eqn:Hrec; [|discriminate].
      injection Hscan as <- <-.
      destruct (IH o r' eq_refl) as (x & Hin & Hx).
      exists x. split; [right; exact Hin | exact Hx].
    + exists curr. split; [left; reflexivity|].
      destruct (sz <? size curr); [destruct ok; [|discriminate]|];
        injection Hscan as <- _; reflexivity.
Qed.

Lemma ptr_of_not_null (st : pool) (x : MemBlock) :
  pool_ok st -> In x (block_list st) -> ptr_of st (offset x) <> NULL.
Proof.
  intros ((Hc & Ht) & (Hbase & Hend)) Hin.
  destruct (tiles_In _ _ _ _ Ht Hin) as (Hlo & Hpos & Hhi).
  unfold ptr_of, NULL. rewrite wrap_small by lia. lia.
Qed.

(** Inside a well-formed pool a [NULL] from [mem_alloc] means that nothing
    was handed out. *)
Lemma mem_alloc_null_unchanged (st : pool) (sz : Z) (ok : bool) :
  pool_ok st -> fst (mem_alloc sz ok st) = NULL ->
  snd (mem_alloc sz ok st) = st.
Proof.
  intros Hok Hnull. unfold mem_alloc in *.
  destruct (sz =? 0).
  - destruct (first_free (block_list st)); reflexivity.
  - destruct (alloc_scan sz ok (block_list st)) as [[off l]|] eqn:Hscan;
      [|reflexivity].
    destruct (alloc_scan_offset _ _ _ _ _ Hscan) as (x & Hin & <-).
    simpl in Hnull. exfalso. exact (ptr_of_not_null st x Hok Hin Hnull).
Qed.

Lemma shrink_to_null (curr : MemBlock) (sz : Z) (ok : bool)
  (rest l' : list MemBlock) :
  shrink_to curr sz ok rest = RNull l' -> l' = curr :: rest.
Proof.
  unfold shrink_to. destruct (sz <? size curr); [destruct ok|];
    intros H; try discriminate. injection H as <-. reflexivity.
Qed.

Lemma resize_scan_null_keeps (off sz : Z) (ok : bool) (b : MemBlock)
  (l : list MemBlock) :
  forall l', find_block off l = Some b ->
    resize_scan off sz ok l = RNull l' ->
    exists b',
      find_block off l' = Some b' /\
      is_free b' = is_free b /\ offset b' = offset b /\
      (size b' = size b \/
       exists front n t,
         l = front ++ b :: n :: t /\ is_free n = true /\
         size b' = wrap (size b + size n)).
Proof.
  induction l as [|curr rest IH]; intros l' Hfind Hscan; simpl in *.
  - discriminate.
  - destruct (offset curr =? off) eqn:Hhere; simpl in Hscan.
    + injection Hfind as ->.
      destruct (sz <=? size b).
      * apply shrink_to_null in Hscan. subst l'.
        exists b. simpl. rewrite Hhere. repeat split. left; reflexivity.
      * destruct rest as [|n t]; [discriminate|].
        destruct (is_free n && (sz <=? wrap (size b + size n))) eqn:Hgrow;
          [|discriminate].
        apply andb_prop in Hgrow. destruct Hgrow as (Hn & _).
        apply shrink_to_null in Hscan. subst l'.
        exists (set_size b (wrap (size b + size n))). simpl. rewrite Hhere.
        repeat split. right. exists [], n, t. repeat split. exact Hn.
    + destruct (resize_scan off sz ok rest) as [r|r|o|] eqn:Hrec;
        simpl in Hscan; try discriminate.
      injection Hscan as <-.
      destruct (IH r Hfind eq_refl) as (b' & Hf' & Hfree & Hoff & Hsize).
      exists b'. simpl. rewrite Hhere. repeat split; try assumption.
      destruct Hsize as [Hsame | (front & n & t & -> & Hn & Hsum)].
      * left; exact Hsame.
      * right. exists (curr :: front), n, t. repeat split; assumption.
Qed.

(** C9.  In a well-formed pool, when [mem_resize a sz] with [a] non-null,
    [sz > 0] and the descriptor [b] of [a] in use answers [NULL], the
    arena bytes are what they were, and the chain still has a descriptor
    at the offset of [a] that is in use: [b] itself, or [b] grown by the
    free descriptor [n] that followed it. *)
Theorem mem_resize_null_keeps_block (st : pool) (a sz : Z) (ok : bool)
  (b : MemBlock) :
  a <> NULL -> 0 < sz -> pool_ok st ->
  find_block (offset_of st a) (block_list st) = Some b ->
  is_free b = false ->
  fst (mem_resize a sz ok st) = NULL ->
  pool_bytes (snd (mem_resize a sz ok st)) = pool_bytes st /\
  exists b',
    find_block (offset_of st a) (block_list (snd (mem_resize a sz ok st)))
    = Some b' /\
    is_free b' = false /\ offset b' = offset b /\
    (size b' = size b \/
     exists front n t,
       block_list st = front ++ b :: n :: t /\ is_free n = true /\
       size b' = size b + size n).
Proof.
  intros Ha Hsz Hok Hfind Hb Hnull.
  assert (Haz : (a =? NULL) = false) by (apply Z.eqb_neq; exact Ha).
  assert (Hnz : (sz =? 0) = false) by (apply Z.eqb_neq; lia).
  unfold mem_resize in *. rewrite Haz, Hnz in *.
  destruct (resize_scan (offset_of st a) sz ok (block_list st))
    as [l|l|old|] eqn:Hscan.
  - simpl in Hnull. contradiction.
  - simpl. split; [reflexivity|].
    destruct (resize_scan_null_keeps _ _ _ _ _ _ Hfind Hscan)
      as (b' & Hf' & Hfree & Hoff & Hsize).
    exists b'. repeat split; try assumption; [congruence|].
    destruct Hsize as [Hsame | (front & n & t & Hl & Hn & Hsum)].
    + left; exact Hsame.
    + right. exists front, n, t. repeat split; try assumption.
      destruct Hok as ((Hc & Ht) & _). rewrite Hl in Ht.
      apply tiles_app in Ht. destruct Ht as (m & Hfront & Hbn).
      pose proof (tiles_le _ _ _ Hfront) as Hm.
      destruct Hbn as (Hbo & Hbp & Hno & Hnp & Hr).
      pose proof (tiles_le _ _ _ Hr) as Hend.
      rewrite Hsum. apply wrap_small. lia.
  - pose proof (mem_alloc_null_unchanged st sz ok Hok) as Hsame.
    destruct (mem_alloc sz ok st) as [new_ptr st1]. simpl in Hsame.
    destruct (new_ptr =? NULL) eqn:Hnp.
    + apply Z.eqb_eq in Hnp. simpl. rewrite (Hsame Hnp).
      split; [reflexivity|]. exists b. repeat split; try assumption.
      left; reflexivity.
    + simpl in Hnull. apply Z.eqb_neq in Hnp. contradiction.
  - simpl. split; [reflexivity|]. exists b. repeat split; try assumption.
    left; reflexivity.
Qed.

Lemma mem_resize_null_keeps_block_witness :
  pool_bytes (snd (mem_resize 4096 50 false (snd (mem_alloc 30 true pool100))))
  = pool_bytes (snd (mem_alloc 30 true pool100)) /\
  exists b',
    find_block (offset_of (snd (mem_alloc 30 true pool100)) 4096)
      (block_list
         (snd (mem_resize 4096 50 false (snd (mem_alloc 30 true pool100)))))
    = Some b' /\
    is_free b' = false /\ offset b' = offset (mkBlock 0 30 false) /\
    (size b' = size (mkBlock 0 30 false) \/
     exists front n t,
       block_list (snd (mem_alloc 30 true pool100))
       = front ++ mkBlock 0 30 false :: n :: t /\
       is_free n = true /\ size b' = size (mkBlock 0 30 false) + size n).
Proof.
  apply (mem_resize_null_keeps_block (snd (mem_alloc 30 true pool100))
           4096 50 false (mkBlock 0 30 false)).
  - discriminate.
  - lia.
  - unfold pool_ok, ledger_ok, arena_ok, SIZE_MAX1. simpl. repeat split; lia.
  - reflexivity.
  - reflexivity.
  - reflexivity.
Defined.

(** ** Adjacent free descriptors *)

Lemma adjacent_free_cons (a : MemBlock) (rest : list MemBlock) :
  adjacent_free (a :: rest) = (is_free a && head_free rest) || adjacent_free rest.
Proof.
  destruct rest as [|b t]; simpl.
  - rewrite andb_false_r. reflexivity.
  - reflexivity.
Qed.

Lemma alloc_scan_adjacent (sz : Z) (ok : bool) (l : list MemBlock) :
  forall off l', adjacent_free l = false ->
    alloc_scan sz ok l = Some (off, l') ->
    adjacent_free l' = false /\ (head_free l' = true -> head_free l = true).
Proof.
  induction l as [|curr rest IH]; intros off l' Hadj Hscan.
  - discriminate.
  - rewrite adjacent_free_cons in Hadj. apply orb_false_elim in Hadj.
    destruct Hadj as (Hpair & Hrest). simpl in Hscan.
    destruct (negb (is_free curr) || (size curr <? sz)) eqn:Hskip.
    + destruct (alloc_scan sz ok rest) as [[o r']|] eqn:Hrec; [|discriminate].
      injection Hscan as <- <-.
      destruct (IH o r' Hrest eq_refl) as (Hadj' & Hhead).
      split; [|intros H; exact H].
      rewrite adjacent_free_cons, Hadj', orb_false_r.
      destruct (is_free curr); [|reflexivity]. simpl in *.
      destruct (head_free r'); [|reflexivity].
      rewrite (Hhead eq_refl) in Hpair. discriminate.
    + apply orb_false_elim in Hskip. destruct Hskip as (Hfree & _).
      apply negb_false_iff in Hfree. rewrite Hfree in Hpair. simpl in Hpair.
      destruct (sz <? size curr).
      * destruct ok; [|discriminate]. injection Hscan as <- <-.
        split; [|discriminate]. simpl app.
        rewrite !adjacent_free_cons. simpl. rewrite Hpair, Hrest. reflexivity.
      * injection Hscan as <- <-. split; [|discriminate].
        rewrite adjacent_free_cons. simpl. exact Hrest.
Qed.

Lemma merge_next_adjacent (curr : MemBlock) (rest : list MemBlock) :
  forall c' r', adjacent_free rest = false ->
    merge_next (set_is_free curr true) rest = (c', r') ->
    is_free c' = true /\ head_free r' = false /\ adjacent_free r' = false.
Proof.
  intros c' r' Hadj Hm. unfold merge_next in Hm.
  destruct rest as [|next rest'].
  - injection Hm as <- <-. repeat split.
  - destruct (is_free next) eqn:Hn.
    + injection Hm as <- <-.
      rewrite adjacent_free_cons, Hn in Hadj. simpl in Hadj.
      apply orb_false_elim in Hadj. destruct Hadj as (Hh & Ha).
      repeat split; assumption.
    + injection Hm as <- <-. repeat split; assumption.
Qed.

Lemma free_scan_adjacent_from (off : Z) (l : list MemBlock) :
  forall p, adjacent_free (p :: l) = false ->
    adjacent_free (free_scan off (Some p) l) = false /\
    head_free (free_scan off (Some p) l) = is_free p.
Proof.
  induction l as [|curr rest IH]; intros p Hadj.
  - split; reflexivity.
  - assert (Hadj' := Hadj). rewrite adjacent_free_cons in Hadj'.
    apply orb_false_elim in Hadj'. destruct Hadj' as (Hpair & Hrest).
    simpl head_free in Hpair. simpl free_scan.
    destruct (negb (offset curr =? off)).
    + destruct (IH curr Hrest) as (Ha & Hh). simpl opt_cons.
      split; [|reflexivity].
      rewrite adjacent_free_cons, Ha, Hh, Hpair. reflexivity.
    + destruct (is_free curr) eqn:Hcurr.
      * split; [exact Hadj | reflexivity].
      * rewrite adjacent_free_cons in Hrest.
        apply orb_false_elim in Hrest. destruct Hrest as (_ & Hrest).
        destruct (merge_next (set_is_free curr true) rest) as [c' r'] eqn:Hm.
        destruct (merge_next_adjacent curr rest c' r' Hrest Hm)
          as (Hc' & Hh & Ha).
        unfold merge_prev. destruct (is_free p) eqn:Hp.
        -- split; [|simpl; exact Hp].
           rewrite adjacent_free_cons, Hh, Ha, andb_false_r. reflexivity.
        -- split; [|simpl; exact Hp].
           rewrite !adjacent_free_cons, Hp, Hh, Ha, andb_false_r. reflexivity.
Qed.

Lemma free_scan_adjacent (off : Z) (l : list MemBlock) :
  adjacent_free l = false -> adjacent_free (free_scan off None l) = false.
Proof.
  intros Hadj. destruct l as [|curr rest]; [reflexivity|].
  simpl free_scan. destruct (negb (offset curr =? off)).
  - apply (free_scan_adjacent_from off rest curr Hadj).
  - destruct (is_free curr); [exact Hadj|].
    rewrite adjacent_free_cons in Hadj.
    apply orb_false_elim in Hadj. destruct Hadj as (_ & Hrest).
    destruct (merge_next (set_is_free curr true) rest) as [c' r'] eqn:Hm.
    destruct (merge_next_adjacent curr rest c' r' Hrest Hm) as (Hc' & Hh & Ha).
    simpl merge_prev.
    rewrite adjacent_free_cons, Hh, Ha, andb_false_r. reflexivity.
Qed.

Lemma step_no_resize_adjacent (st : pool) (c : call) :
  no_resize c -> adjacent_free (block_list st) = false ->
  adjacent_free (block_list (step st c)) = false.
Proof.
  destruct c as [sz ok | ptr | ptr sz ok]; simpl; intros Hc Hadj.
  - unfold mem_alloc. destruct (sz =? 0).
    + destruct (first_free (block_list st)); exact Hadj.
    + destruct (alloc_scan sz ok (block_list st)) as [[o l]|] eqn:Hscan;
        [|exact Hadj].
      apply (alloc_scan_adjacent sz ok _ o l Hadj Hscan).
  - unfold mem_free. destruct (ptr =? NULL); [exact Hadj|].
    apply free_scan_adjacent. exact Hadj.
  - contradiction.
Qed.

(** Without [mem_resize] the ledger never holds two adjacent free
    descriptors, whatever the arguments of the calls. *)
Lemma alloc_release_no_adjacent_free
  (c p : Z) (bytes : Z -> Z) (ok : bool) (st0 : pool) (cs : list call) :
  mem_init c p bytes ok = Some st0 -> Forall no_resize cs ->
  adjacent_free (block_list (run cs st0)) = false.
Proof.
  intros Hinit Hcs.
  assert (H0 : adjacent_free (block_list st0) = false).
  { unfold mem_init in Hinit. destruct (p =? NULL); [discriminate|].
    destruct ok; [|discriminate]. injection Hinit as <-. reflexivity. }
  clear Hinit. revert st0 H0.
  induction Hcs as [|x cs Hx _ IH]; intros st0 H0.
  - exact H0.
  - simpl. apply IH. apply step_no_resize_adjacent; assumption.
Qed.

(** C2 fails on the shrink path of [mem_resize].  Shrinking the block at
    offset 0 from 30 to 10 bytes puts the free leftover at offset 10
    directly in front of the free descriptor at offset 30.  Releasing the
    block afterwards leaves the arena in two free pieces, so a request for
    the whole arena fails although every byte is free. *)
Theorem resize_shrink_leaves_adjacent_free :
  mem_init 100 4096 zero_bytes true = Some pool100 /\
  block_list (run [Allocate 30 true; Resize 4096 10 true] pool100)
  = [mkBlock 0 10 false; mkBlock 10 20 true; mkBlock 30 70 true] /\
  adjacent_free
    (block_list (run [Allocate 30 true; Resize 4096 10 true] pool100)) = true /\
  block_list
    (run [Allocate 30 true; Resize 4096 10 true; Release 4096] pool100)
  = [mkBlock 0 30 true; mkBlock 30 70 true] /\
  fst (mem_alloc 100 true
         (run [Allocate 30 true; Resize 4096 10 true; Release 4096] pool100))
  = NULL.
Proof.
  repeat split.
Qed.

(** ** Scenarios of the specification *)

(** Boundary: the whole arena can be handed out at offset 0, after which
    a request for one byte fails until something is released. *)
Example whole_arena_then_full :
  mem_alloc 100 true pool100
  = (4096, mkPool 4096 100 [mkBlock 0 100 false] zero_bytes) /\
  fst (mem_alloc 1 true (snd (mem_alloc 100 true pool100))) = NULL /\
  fst (mem_alloc 1 true
         (mem_free 4096 (snd (mem_alloc 100 true pool100)))) = 4096.
Proof. repeat split. Qed.

(** Relocation: the block at offset 0 cannot grow in place because its
    neighbour is in use, so it moves behind it and its old place is
    released; the bytes written to the old block travel with it. *)
Example relocation_moves_bytes :
  let st := run [Allocate 30 true; Allocate 20 true] pool100 in
  let st' := with_bytes st (fun i => if i =? 3 then 77 else 0) in
  fst (mem_resize 4096 40 true st') = 4096 + 50 /\
  block_list (snd (mem_resize 4096 40 true st'))
  = [mkBlock 0 30 true; mkBlock 30 20 false;
     mkBlock 50 40 false; mkBlock 90 10 true] /\
  pool_bytes (snd (mem_resize 4096 40 true st')) 53 = 77.
Proof. repeat split. Qed.

(** * Further properties of the allocator *)

(** ** What a successful allocation hands out *)

Lemma first_fit_split (sz : Z) (l : list MemBlock) :
  Forall (fun x => fits sz x = false) l \/
  exists l1 b l2,
    l = l1 ++ b :: l2 /\
    Forall (fun x => fits sz x = false) l1 /\ fits sz b = true.
Proof.
  induction l as [|x l IH].
  - left. constructor.
  - destruct (fits sz x) eqn:Hx.
    + right. exists [], x, l. repeat split; [constructor | exact Hx].
    + destruct IH as [Hno | (l1 & b & l2 & -> & Hno & Hb)].
      * left. constructor; assumption.
      * right. exists (x :: l1), b, l2.
        repeat split; [constructor; assumption | exact Hb].
Qed.

Lemma ptr_of_small (st : pool) (off : Z) :
  arena_ok st -> 0 <= off < pool_size st ->
  ptr_of st off = memory_pool st + off /\
  ptr_of st off <> NULL /\
  offset_of st (ptr_of st off) = off.
Proof.
  intros (Hbase & Hend) Hoff. unfold ptr_of, offset_of, NULL.
  rewrite wrap_small by lia. repeat split; [lia|].
  replace (memory_pool st + off - memory_pool st) with off by lia.
  apply wrap_small. lia.
Qed.

(** A successful [mem_alloc], seen from the ledger: the first fitting
    descriptor [b] is replaced by [served b sz]. *)
Lemma mem_alloc_success (st st' : pool) (sz p : Z) (ok : bool) :
  pool_ok st -> 0 < sz -> mem_alloc sz ok st = (p, st') -> p <> NULL ->
  exists l1 b l2,
    block_list st = l1 ++ b :: l2 /\
    Forall (fun x => fits sz x = false) l1 /\ fits sz b = true /\
    0 <= offset b /\ sz <= size b /\ offset b + size b <= pool_size st /\
    p = memory_pool st + offset b /\ offset_of st p = offset b /\
    st' = with_blocks st (l1 ++ served b sz ++ l2).
Proof.
  intros ((Hc & Ht) & Harena) Hsz Halloc Hp. unfold mem_alloc in Halloc.
  assert (Hnz : (sz =? 0) = false) by (apply Z.eqb_neq; lia).
  rewrite Hnz in Halloc.
  destruct (first_fit_split sz (block_list st))
    as [Hno | (l1 & b & l2 & Hl & Hno & Hb)].
  - rewrite (alloc_scan_none sz ok _ Hno) in Halloc.
    injection Halloc as <- _. contradiction.
  - assert (Hin : In b (block_list st)).
    { rewrite Hl. apply in_or_app. right. left. reflexivity. }
    destruct (tiles_In _ _ _ _ Ht Hin) as (Hlo & Hpos & Hhi).
    assert (Hfit := Hb). unfold fits in Hfit. apply andb_prop in Hfit.
    destruct Hfit as (Hfree & Hle). apply Z.leb_le in Hle.
    destruct (ptr_of_small st (offset b) Harena ltac:(lia)) as (Hptr & _ & Hoff).
    rewrite Hl, (alloc_scan_split sz ok l1 l2 b Hno Hb) in Halloc.
    exists l1, b, l2. unfold served.
    destruct (sz <? size b) eqn:Hlt.
    + destruct ok; [|injection Halloc as <- _; contradiction].
      apply Z.ltb_lt in Hlt. injection Halloc as <- <-.
      rewrite Hoff. repeat split; try assumption.
      unfold split_block. simpl. rewrite !wrap_small by lia. reflexivity.
    + injection Halloc as <- <-. apply Z.ltb_ge in Hlt.
      rewrite Hoff. repeat split; try assumption.
      unfold set_is_free. simpl. replace (size b) with sz by lia. reflexivity.
Qed.

Lemma mem_alloc_fresh (st st' : pool) (sz p : Z) (ok : bool) :
  pool_ok st -> 0 < sz -> mem_alloc sz ok st = (p, st') -> p <> NULL ->
  exists off,
    p = memory_pool st + off /\ 0 <= off /\ off + sz <= pool_size st /\
    In (mkBlock off sz false) (block_list st') /\
    forall u, In u (block_list st) -> is_free u = false ->
              In u (block_list st') /\
              (offset u + size u <= off \/ off + sz <= offset u).
Proof.
  intros Hok Hsz Halloc Hp.
  destruct (mem_alloc_success st st' sz p ok Hok Hsz Halloc Hp)
    as (l1 & b & l2 & Hl & _ & Hb & Hlo & Hle & Hhi & Hptr & _ & ->).
  exists (offset b). repeat split; try assumption; try lia.
  - simpl. apply in_or_app. right. apply in_or_app. left.
    unfold served. destruct (sz <? size b); left; reflexivity.
  - simpl. rewrite Hl in H. apply in_app_or in H.
    destruct H as [H | [H | H]].
    + apply in_or_app. left. exact H.
    + subst u. unfold fits in Hb. rewrite H0 in Hb. discriminate.
    + apply in_or_app. right. apply in_or_app. right. exact H.
  - destruct Hok as ((_ & Ht) & _). rewrite Hl in Ht, H.
    apply tiles_app in Ht. destruct Ht as (m & H1 & Hb2).
    assert (Hb2' := Hb2). destruct Hb2' as (Hbo & Hbp & H2).
    apply in_app_or in H. destruct H as [H | [H | H]].
    + destruct (tiles_In _ _ _ _ H1 H) as (_ & _ & Hend). left. lia.
    + subst u. unfold fits in Hb. rewrite H0 in Hb. discriminate.
    + destruct (tiles_In _ _ _ _ H2 H) as (Hstart & _ & _). right. lia.
Qed.

(** X1.  In a well-formed pool a successful [mem_alloc] of [sz > 0] bytes
    returns an address inside the arena whose [sz] bytes are covered by
    one descriptor marked used, and every descriptor that was in use
    before is still in the ledger, untouched, and does not overlap the
    new block. *)
Theorem mem_alloc_fresh_block (st st' : pool) (sz p : Z) (ok : bool) :
  pool_ok st -> 0 < sz -> mem_alloc sz ok st = (p, st') -> p <> NULL ->
  exists off,
    p = memory_pool st + off /\ 0 <= off /\ off + sz <= pool_size st /\
    In (mkBlock off sz false) (block_list st') /\
    forall u, In u (block_list st) -> is_free u = false ->
              In u (block_list st') /\
              (offset u + size u <= off \/ off + sz <= offset u).
Proof. exact (mem_alloc_fresh st st' sz p ok). Qed.

Lemma pool100_pool_ok : pool_ok pool100.
Proof.
  unfold pool_ok, ledger_ok, arena_ok, pool100, SIZE_MAX1. simpl.
  repeat split; lia.
Qed.

Lemma mem_alloc_fresh_block_witness :
  exists off,
    4096 = memory_pool pool100 + off /\ 0 <= off /\
    off + 30 <= pool_size pool100 /\
    In (mkBlock off 30 false)
       (block_list (mkPool 4096 100 [mkBlock 0 30 false; mkBlock 30 70 true]
                           zero_bytes)) /\
    forall u, In u (block_list pool100) -> is_free u = false ->
              In u (block_list
                      (mkPool 4096 100
                              [mkBlock 0 30 false; mkBlock 30 70 true]
                              zero_bytes)) /\
              (offset u + size u <= off \/ off + 30 <= offset u).
Proof.
  apply (mem_alloc_fresh_block pool100 _ 30 4096 true pool100_pool_ok).
  - lia.
  - reflexivity.
  - discriminate.
Defined.

(** X2.  In a well-formed pool, with the bookkeeping [malloc] succeeding,
    [mem_alloc] of [sz > 0] bytes answers [NULL] exactly when no free
    descriptor is at least [sz] long. *)
Theorem mem_alloc_null_iff_no_fit (st : pool) (sz : Z) :
  pool_ok st -> 0 < sz ->
  (fst (mem_alloc sz true st) = NULL <->
   Forall (fun x => fits sz x = false) (block_list st)).
Proof.
  intros Hok Hsz.
  assert (Hnz : (sz =? 0) = false) by (apply Z.eqb_neq; lia).
  split.
  - intros Hnull.
    destruct (first_fit_split sz (block_list st))
      as [Hno | (l1 & b & l2 & Hl & Hno & Hb)]; [exact Hno|].
    exfalso. unfold mem_alloc in Hnull.
    rewrite Hnz, Hl, (alloc_scan_split sz true l1 l2 b Hno Hb) in Hnull.
    assert (Hin : In b (block_list st)).
    { rewrite Hl. apply in_or_app. right. left. reflexivity. }
    apply (ptr_of_not_null st b Hok Hin).
    destruct (sz <? size b); exact Hnull.
  - intros Hno. unfold mem_alloc.
    rewrite Hnz, (alloc_scan_none sz true _ Hno). reflexivity.
Qed.

Lemma mem_alloc_null_iff_no_fit_witness :
  fst (mem_alloc 80 true (snd (mem_alloc 30 true pool100))) = NULL.
Proof.
  apply (mem_alloc_null_iff_no_fit (snd (mem_alloc 30 true pool100)) 80).
  - unfold pool_ok, ledger_ok, arena_ok, SIZE_MAX1. simpl. repeat split; lia.
  - lia.
  - repeat constructor.
Defined.

(** ** Byte accounting *)

Lemma free_bytes_app (l1 l2 : list MemBlock) :
  free_bytes (l1 ++ l2) = free_bytes l1 + free_bytes l2.
Proof.
  induction l1 as [|b l1 IH]; simpl; [reflexivity | rewrite IH; lia].
Qed.

Lemma used_bytes_app (l1 l2 : list MemBlock) :
  used_bytes (l1 ++ l2) = used_bytes l1 + used_bytes l2.
Proof.
  induction l1 as [|b l1 IH]; simpl; [reflexivity | rewrite IH; lia].
Qed.

Lemma tiles_bytes (l : list MemBlock) :
  forall s e, tiles s l e -> free_bytes l + used_bytes l = e - s.
Proof.
  induction l as [|b l IH]; simpl; intros s e H.
  - lia.
  - destruct H as (_ & _ & Hr). apply IH in Hr. destruct (is_free b); lia.
Qed.

(** X3.  Whatever calls were made since [mem_init] with capacity [c], the
    lengths of the free descriptors and of the used descriptors add up to
    [c]: no byte is lost and none is counted twice. *)
Theorem bytes_conserved
  (c p : Z) (bytes : Z -> Z) (ok : bool) (st0 : pool) (cs : list call) :
  0 < c < SIZE_MAX1 ->
  mem_init c p bytes ok = Some st0 ->
  Forall call_ok cs ->
  free_bytes (block_list (run cs st0)) + used_bytes (block_list (run cs st0))
  = c.
Proof.
  intros Hc Hinit Hcs.
  destruct (mem_init_ledger_ok c p bytes ok st0 Hc Hinit) as (Hok & Hsz).
  pose proof (run_ledger_ok cs st0 Hcs Hok) as (_ & Ht).
  rewrite run_pool_size, Hsz in Ht.
  rewrite (tiles_bytes _ 0 c Ht). lia.
Qed.

Lemma bytes_conserved_witness :
  free_bytes
    (block_list (run [Allocate 30 true; Resize 4096 10 true; Release 4096]
                     pool100))
  + used_bytes
      (block_list (run [Allocate 30 true; Resize 4096 10 true; Release 4096]
                       pool100))
  = 100.
Proof.
  apply (bytes_conserved 100 4096 zero_bytes true pool100).
  - unfold SIZE_MAX1. lia.
  - reflexivity.
  - calls_ok.
Defined.

Lemma served_free_bytes (b : MemBlock) (sz : Z) :
  is_free b = true -> sz <= size b ->
  free_bytes (served b sz) = size b - sz.
Proof.
  intros Hb Hle. unfold served. destruct (sz <? size b) eqn:Hlt; simpl.
  - lia.
  - apply Z.ltb_ge in Hlt. lia.
Qed.

(** X4.  In a well-formed pool a successful [mem_alloc] of [sz > 0] bytes
    takes exactly [sz] bytes out of the free total, and a failed one
    takes nothing. *)
Theorem mem_alloc_free_bytes (st st' : pool) (sz p : Z) (ok : bool) :
  pool_ok st -> 0 < sz -> mem_alloc sz ok st = (p, st') ->
  free_bytes (block_list st') =
  if p =? NULL then free_bytes (block_list st)
  else free_bytes (block_list st) - sz.
Proof.
  intros Hok Hsz Halloc. destruct (p =? NULL) eqn:Hp.
  - apply Z.eqb_eq in Hp.
    pose proof (mem_alloc_null_unchanged st sz ok Hok) as Hsame.
    rewrite Halloc in Hsame. simpl in Hsame. rewrite (Hsame Hp). reflexivity.
  - apply Z.eqb_neq in Hp.
    destruct (mem_alloc_success st st' sz p ok Hok Hsz Halloc Hp)
      as (l1 & b & l2 & Hl & _ & Hb & _ & Hle & _ & _ & _ & ->).
    unfold fits in Hb. apply andb_prop in Hb. destruct Hb as (Hfree & _).
    simpl. rewrite Hl, !free_bytes_app, (served_free_bytes b sz Hfree Hle).
    simpl. rewrite Hfree. lia.
Qed.

Lemma mem_alloc_free_bytes_witness :
  free_bytes (block_list (snd (mem_alloc 30 true pool100))) = 100 - 30.
Proof.
  rewrite (mem_alloc_free_bytes pool100 (snd (mem_alloc 30 true pool100))
             30 4096 true pool100_pool_ok).
  - reflexivity.
  - lia.
  - reflexivity.
Defined.

Lemma absorb_next_free_bytes (b b' : MemBlock) (after after' : list MemBlock) :
  is_free b = true -> absorb_next b after = (b', after') ->
  is_free b' = true /\
  free_bytes (b' :: after') = size b + free_bytes after.
Proof.
  intros Hb Hab. unfold absorb_next in Hab. destruct after as [|n t].
  - injection Hab as <- <-. simpl. rewrite Hb. split; [reflexivity | lia].
  - destruct (is_free n) eqn:Hn.
    + injection Hab as <- <-. simpl. rewrite Hb, Hn. split; [reflexivity | lia].
    + injection Hab as <- <-. simpl. rewrite Hb, Hn. split; [reflexivity | lia].
Qed.

Lemma absorb_into_prev_free_bytes (p b : MemBlock) (after : list MemBlock) :
  is_free b = true ->
  free_bytes (absorb_into_prev p b after) = free_bytes (p :: b :: after).
Proof.
  intros Hb. unfold absorb_into_prev.
  destruct (is_free p) eqn:Hp; simpl; rewrite ?Hp, Hb; lia.
Qed.

(** The chain [mem_free] leaves when the address is that of the used
    descriptor [b]: [b], marked free, has absorbed a free successor and
    has been absorbed by a free predecessor. *)
Lemma mem_free_used (st : pool) (a : Z) (b : MemBlock) :
  a <> NULL -> ledger_ok st ->
  find_block (offset_of st a) (block_list st) = Some b -> is_free b = false ->
  exists front after b' after',
    block_list st = front ++ b :: after /\
    absorb_next (mkBlock (offset b) (size b) true) after = (b', after') /\
    ((front = [] /\ mem_free a st = with_blocks st (b' :: after')) \/
     (exists front' p,
         front = front' ++ [p] /\
         mem_free a st =
         with_blocks st (front' ++ absorb_into_prev p b' after'))).
Proof.
  intros Ha Hok Hfind Hb.
  destruct (find_block_split _ _ _ Hfind) as (front & after & Hl & _ & Ho).
  destruct (absorb_next (mkBlock (offset b) (size b) true) after)
    as [b' after'] eqn:Hab.
  exists front, after, b', after'. split; [exact Hl|]. split; [exact Hab|].
  destruct (rev front) as [|p rfront] eqn:Hrev.
  - assert (front = []) as ->.
    { rewrite <- (rev_involutive front), Hrev. reflexivity. }
    left. split; [reflexivity|].
    apply (mem_free_head st a b b' after after' Ha Hok Ho Hb Hab Hl).
  - assert (Hfr : front = rev rfront ++ [p]).
    { rewrite <- (rev_involutive front), Hrev. reflexivity. }
    right. exists (rev rfront), p. split; [exact Hfr|].
    rewrite Hfr, <- app_assoc in Hl. simpl app in Hl.
    apply (mem_free_inner st a p b b' (rev rfront) after after'
             Ha Hok Ho Hb Hab Hl).
Qed.

(** X5.  In a well-formed ledger, releasing the address of a used
    descriptor gives exactly its length back to the free total, with or
    without merges. *)
Theorem mem_free_free_bytes (st : pool) (a : Z) (b : MemBlock) :
  a <> NULL -> ledger_ok st ->
  find_block (offset_of st a) (block_list st) = Some b -> is_free b = false ->
  free_bytes (block_list (mem_free a st))
  = free_bytes (block_list st) + size b.
Proof.
  intros Ha Hok Hfind Hb.
  destruct (mem_free_used st a b Ha Hok Hfind Hb)
    as (front & after & b' & after' & Hl & Hab & Hres).
  destruct (absorb_next_free_bytes (mkBlock (offset b) (size b) true)
              b' after after' eq_refl Hab) as (Hb' & Hsum).
  simpl size in Hsum.
  destruct Hres as [(-> & ->) | (front' & p & -> & ->)].
  - simpl block_list. rewrite Hsum, Hl. simpl. rewrite Hb. lia.
  - simpl block_list.
    rewrite Hl, !free_bytes_app, (absorb_into_prev_free_bytes p b' after' Hb').
    change (free_bytes (p :: b' :: after'))
      with ((if is_free p then size p else 0) + free_bytes (b' :: after')).
    rewrite Hsum. simpl. rewrite Hb. lia.
Qed.

Lemma mem_free_free_bytes_witness :
  free_bytes
    (block_list
       (mem_free 4126 (run [Allocate 30 true; Allocate 20 true] pool100)))
  = free_bytes (block_list (run [Allocate 30 true; Allocate 20 true] pool100))
    + size (mkBlock 30 20 false).
Proof.
  apply (mem_free_free_bytes _ 4126 (mkBlock 30 20 false)).
  - discriminate.
  - apply run_ledger_ok; [calls_ok | exact pool100_ledger_ok].
  - reflexivity.
  - reflexivity.
Defined.

(** ** Release undoes allocation *)

Lemma adjacent_free_app_r (l1 l2 : list MemBlock) :
  adjacent_free (l1 ++ l2) = false -> adjacent_free l2 = false.
Proof.
  induction l1 as [|x l1 IH]; intros H.
  - exact H.
  - simpl app in H. rewrite adjacent_free_cons in H.
    apply orb_false_elim in H. apply IH. apply H.
Qed.

Lemma free_neighbours_used (l1 l2 : list MemBlock) (b : MemBlock) :
  adjacent_free (l1 ++ b :: l2) = false -> is_free b = true ->
  head_free l2 = false /\
  forall front p, l1 = front ++ [p] -> is_free p = false.
Proof.
  intros Hadj Hb. split.
  - apply adjacent_free_app_r in Hadj. rewrite adjacent_free_cons, Hb in Hadj.
    apply orb_false_elim in Hadj. apply Hadj.
  - intros front p ->. rewrite <- app_assoc in Hadj. simpl app in Hadj.
    apply adjacent_free_app_r in Hadj.
    rewrite adjacent_free_cons in Hadj. simpl head_free in Hadj.
    rewrite Hb, andb_true_r in Hadj.
    apply orb_false_elim in Hadj. apply Hadj.
Qed.

Lemma with_blocks_twice (st : pool) (x y : list MemBlock) :
  with_blocks (with_blocks st x) y = with_blocks st y.
Proof. reflexivity. Qed.

Lemma absorb_next_served (b : MemBlock) (sz : Z) (l2 : list MemBlock) :
  is_free b = true -> sz <= size b -> head_free l2 = false ->
  exists tail,
    served b sz = mkBlock (offset b) sz false :: tail /\
    absorb_next (mkBlock (offset b) sz true) (tail ++ l2) = (b, l2).
Proof.
  intros Hb Hle Hhead. unfold served. destruct (sz <? size b) eqn:Hlt.
  - exists [mkBlock (offset b + sz) (size b - sz) true].
    split; [reflexivity|]. simpl.
    replace (sz + (size b - sz)) with (size b) by lia.
    destruct b; simpl in *; subst; reflexivity.
  - apply Z.ltb_ge in Hlt. exists []. split; [reflexivity|].
    assert (sz = size b) as -> by lia.
    unfold absorb_next. simpl app.
    destruct l2 as [|n t].
    + destruct b; simpl in *; subst; reflexivity.
    + simpl in Hhead. rewrite Hhead.
      destruct b; simpl in *; subst; reflexivity.
Qed.

Lemma mem_free_after_alloc (st st' : pool) (sz p : Z) (ok : bool) :
  pool_ok st -> adjacent_free (block_list st) = false -> 0 < sz ->
  mem_alloc sz ok st = (p, st') -> p <> NULL ->
  mem_free p st' = st.
Proof.
  intros Hok Hadj Hsz Halloc Hp.
  assert (Hok' : ledger_ok st').
  { pose proof (mem_alloc_ledger_ok sz ok st ltac:(lia) (proj1 Hok)) as H.
    rewrite Halloc in H. exact H. }
  destruct (mem_alloc_success st st' sz p ok Hok Hsz Halloc Hp)
    as (l1 & b & l2 & Hl & _ & Hb & _ & Hle & _ & _ & Hoff & Hst').
  unfold fits in Hb. apply andb_prop in Hb. destruct Hb as (Hfree & _).
  rewrite Hl in Hadj.
  destruct (free_neighbours_used l1 l2 b Hadj Hfree) as (Hhead & Hprev).
  destruct (absorb_next_served b sz l2 Hfree Hle Hhead) as (tail & Hserved & Hab).
  assert (Hoff' : offset (mkBlock (offset b) sz false) = offset_of st' p).
  { rewrite Hst'. exact (eq_sym Hoff). }
  destruct (rev l1) as [|p0 rfront] eqn:Hrev.
  - assert (l1 = []) as ->.
    { rewrite <- (rev_involutive l1), Hrev. reflexivity. }
    rewrite (mem_free_head st' p (mkBlock (offset b) sz false) b
               (tail ++ l2) l2 Hp Hok' Hoff' eq_refl Hab).
    + rewrite Hst', with_blocks_twice. simpl in Hl. rewrite <- Hl.
      apply with_blocks_same.
    + rewrite Hst', Hserved. reflexivity.
  - assert (Hfr : l1 = rev rfront ++ [p0]).
    { rewrite <- (rev_involutive l1), Hrev. reflexivity. }
    rewrite (mem_free_inner st' p p0 (mkBlock (offset b) sz false) b
               (rev rfront) (tail ++ l2) l2 Hp Hok' Hoff' eq_refl Hab).
    + unfold absorb_into_prev. rewrite (Hprev _ _ Hfr).
      rewrite Hst', with_blocks_twice.
      replace (rev rfront ++ p0 :: b :: l2) with (block_list st).
      * apply with_blocks_same.
      * rewrite Hl, Hfr, <- app_assoc. reflexivity.
    + rewrite Hst', Hserved, Hfr, <- app_assoc. reflexivity.
Qed.

(** X6.  In a well-formed pool with no two adjacent free descriptors,
    releasing the address a successful [mem_alloc] just returned puts the
    pool back exactly as it was before the allocation. *)
Theorem mem_free_undoes_mem_alloc (st st' : pool) (sz p : Z) (ok : bool) :
  pool_ok st -> adjacent_free (block_list st) = false -> 0 < sz ->
  mem_alloc sz ok st = (p, st') -> p <> NULL ->
  mem_free p st' = st.
Proof. exact (mem_free_after_alloc st st' sz p ok). Qed.

Lemma mem_free_undoes_mem_alloc_witness :
  mem_free 4126
    (snd (mem_alloc 20 true (snd (mem_alloc 30 true pool100))))
  = snd (mem_alloc 30 true pool100).
Proof.
  apply (mem_free_undoes_mem_alloc (snd (mem_alloc 30 true pool100)) _
           20 4126 true).
  - unfold pool_ok, ledger_ok, arena_ok, SIZE_MAX1. simpl. repeat split; lia.
  - reflexivity.
  - lia.
  - reflexivity.
  - discriminate.
Defined.

(** ** Full coalescing *)

Lemma all_free_tiles_single (l : list MemBlock) :
  forall s e, tiles s l e -> s < e -> adjacent_free l = false ->
    Forall (fun b => is_free b = true) l ->
    l = [mkBlock s (e - s) true].
Proof.
  intros s e Ht Hse Hadj Hall.
  destruct l as [|b r]; simpl in Ht; [lia|].
  destruct Ht as (Ho & Hp & Hr).
  inversion Hall as [|? ? Hb Hrest]; subst.
  destruct r as [|n t].
  - simpl in Hr. destruct b as [o z f]; simpl in *. subst.
    f_equal. f_equal. lia.
  - inversion Hrest as [|? ? Hn _]; subst.
    simpl in Hadj. rewrite Hb, Hn in Hadj. discriminate.
Qed.

(** X7.  After [mem_init] with capacity [c] and any sequence of
    [mem_alloc] and [mem_free] calls, once no descriptor is in use the
    ledger is again the single free descriptor over the whole arena. *)
Theorem all_released_restores_arena
  (c p : Z) (bytes : Z -> Z) (ok : bool) (st0 : pool) (cs : list call) :
  0 < c < SIZE_MAX1 ->
  mem_init c p bytes ok = Some st0 ->
  Forall call_ok cs -> Forall no_resize cs ->
  Forall (fun b => is_free b = true) (block_list (run cs st0)) ->
  block_list (run cs st0) = [mkBlock 0 c true].
Proof.
  intros Hc Hinit Hcs Hnr Hall.
  destruct (mem_init_ledger_ok c p bytes ok st0 Hc Hinit) as (Hok & Hsz).
  pose proof (run_ledger_ok cs st0 Hcs Hok) as (_ & Ht).
  rewrite run_pool_size, Hsz in Ht.
  pose proof (alloc_release_no_adjacent_free c p bytes ok st0 cs Hinit Hnr)
    as Hadj.
  rewrite (all_free_tiles_single _ 0 c Ht ltac:(lia) Hadj Hall).
  f_equal. f_equal. lia.
Qed.

Lemma all_released_restores_arena_witness :
  block_list
    (run [Allocate 30 true; Allocate 20 true; Allocate 50 true;
          Release 4126; Release 4096; Release 4146] pool100)
  = [mkBlock 0 100 true].
Proof.
  apply (all_released_restores_arena 100 4096 zero_bytes true pool100).
  - unfold SIZE_MAX1. lia.
  - reflexivity.
  - calls_ok.
  - repeat constructor.
  - repeat constructor.
Defined.

(** ** What a release touches *)

Lemma merge_next_keeps_used (curr : MemBlock) (rest : list MemBlock) :
  forall c' r' u, merge_next curr rest = (c', r') ->
    In u rest -> is_free u = false -> In u r'.
Proof.
  intros c' r' u Hm Hin Hu. unfold merge_next in Hm.
  destruct rest as [|next rest']; [contradiction|].
  destruct (is_free next) eqn:Hn.
  - injection Hm as <- <-. destruct Hin as [-> | Hin]; [congruence | exact Hin].
  - injection Hm as <- <-. exact Hin.
Qed.

Lemma free_scan_keeps_used (off : Z) (l : list MemBlock) :
  forall prev u, In u (opt_cons prev l) -> is_free u = false ->
    offset u <> off -> In u (free_scan off prev l).
Proof.
  induction l as [|curr rest IH]; intros prev u Hin Hu Hoff.
  - exact Hin.
  - simpl free_scan. destruct (offset curr =? off) eqn:Hhere; simpl negb; cbv iota.
    + destruct (is_free curr); [exact Hin|].
      apply Z.eqb_eq in Hhere.
      destruct (merge_next (set_is_free curr true) rest) as [c' r'] eqn:Hm.
      assert (Hrest : In u rest -> In u r').
      { intros H. apply (merge_next_keeps_used _ _ c' r' u Hm H Hu). }
      unfold merge_prev. destruct prev as [p|]; simpl in Hin.
      * destruct (is_free p) eqn:Hp.
        -- destruct Hin as [-> | [-> | Hin]]; [congruence | congruence |].
           right. apply Hrest. exact Hin.
        -- destruct Hin as [-> | [-> | Hin]];
             [left; reflexivity | congruence |].
           right. right. apply Hrest. exact Hin.
      * destruct Hin as [-> | Hin]; [congruence|].
        right. apply Hrest. exact Hin.
    + destruct prev as [p|]; simpl in Hin |- *.
      * destruct Hin as [-> | Hin]; [left; reflexivity|].
        right. apply (IH (Some curr) u Hin Hu Hoff).
      * apply (IH (Some curr) u Hin Hu Hoff).
Qed.

(** X8.  [mem_free a] never disturbs another allocation: every descriptor
    in use at an offset other than that of [a] is still in the ledger,
    unchanged, whatever the state of the pool. *)
Theorem mem_free_keeps_other_blocks (st : pool) (a : Z) (u : MemBlock) :
  In u (block_list st) -> is_free u = false ->
  offset u <> offset_of st a ->
  In u (block_list (mem_free a st)).
Proof.
  intros Hin Hu Hoff. unfold mem_free. destruct (a =? NULL); [exact Hin|].
  simpl. apply (free_scan_keeps_used _ _ None u Hin Hu Hoff).
Qed.

Lemma mem_free_keeps_other_blocks_witness :
  In (mkBlock 30 20 false)
     (block_list
        (mem_free 4096 (run [Allocate 30 true; Allocate 20 true] pool100))).
Proof.
  apply mem_free_keeps_other_blocks.
  - right. left. reflexivity.
  - reflexivity.
  - discriminate.
Defined.

Lemma mem_free_range (st : pool) (a : Z) (b : MemBlock) :
  a <> NULL -> ledger_ok st ->
  find_block (offset_of st a) (block_list st) = Some b -> is_free b = false ->
  exists f,
    In f (block_list (mem_free a st)) /\ is_free f = true /\
    offset f <= offset b /\ offset b + size b <= offset f + size f.
Proof.
  intros Ha Hok Hfind Hb.
  destruct (mem_free_used st a b Ha Hok Hfind Hb)
    as (front & after & b' & after' & Hl & Hab & Hres).
  assert (Ht := proj2 Hok). rewrite Hl in Ht.
  apply tiles_app in Ht. destruct Ht as (m & Hfront & Hba).
  destruct (absorb_next_shape (mkBlock (offset b) (size b) true) b' after after'
              m (pool_size st) Hba Hab) as (Hbo & Hbf & Hbs & _).
  simpl in Hbo, Hbf, Hbs.
  destruct Hres as [(-> & ->) | (front' & p & -> & ->)].
  - exists b'. simpl. repeat split; try lia; [left; reflexivity | exact Hbf].
  - apply tiles_app in Hfront. destruct Hfront as (m' & _ & Hp).
    simpl in Hp. destruct Hp as (Hpo & Hpp & Hpm).
    destruct Hba as (Hbm & _).
    unfold absorb_into_prev. destruct (is_free p) eqn:Hpf.
    + exists (mkBlock (offset p) (size p + size b') true). simpl.
      repeat split; try lia.
      apply in_or_app. right. left. reflexivity.
    + exists b'. simpl. repeat split; try lia; [|exact Hbf].
      apply in_or_app. right. right. left. reflexivity.
Qed.

(** X9.  In a well-formed ledger, after [mem_free a] on the address of a
    used descriptor [b], the bytes of [b] lie inside one free
    descriptor. *)
Theorem mem_free_range_is_free (st : pool) (a : Z) (b : MemBlock) :
  a <> NULL -> ledger_ok st ->
  find_block (offset_of st a) (block_list st) = Some b -> is_free b = false ->
  exists f,
    In f (block_list (mem_free a st)) /\ is_free f = true /\
    offset f <= offset b /\ offset b + size b <= offset f + size f.
Proof. exact (mem_free_range st a b). Qed.

Lemma mem_free_range_is_free_witness :
  exists f,
    In f (block_list
            (mem_free 4126
               (run [Allocate 30 true; Allocate 20 true; Release 4096]
                    pool100))) /\
    is_free f = true /\
    offset f <= offset (mkBlock 30 20 false) /\
    offset (mkBlock 30 20 false) + size (mkBlock 30 20 false)
    <= offset f + size f.
Proof.
  apply (mem_free_range_is_free _ 4126 (mkBlock 30 20 false)).
  - discriminate.
  - apply run_ledger_ok; [calls_ok | exact pool100_ledger_ok].
  - reflexivity.
  - reflexivity.
Defined.

(** ** Resize: unknown addresses, contents, other blocks *)

Lemma resize_scan_not_found (off sz : Z) (ok : bool) (l : list MemBlock) :
  find_block off l = None -> resize_scan off sz ok l = RNotFound.
Proof.
  induction l as [|curr rest IH]; simpl; intros Hfind.
  - reflexivity.
  - destruct (offset curr =? off); [discriminate|]. simpl.
    rewrite (IH Hfind). reflexivity.
Qed.

(** X10.  [mem_resize] on a non-null address that is the start of no
    descriptor, with a non-zero size, answers [NULL] and leaves the pool
    as it is. *)
Theorem mem_resize_unknown_address (st : pool) (a sz : Z) (ok : bool) :
  a <> NULL -> sz <> 0 ->
  find_block (offset_of st a) (block_list st) = None ->
  mem_resize a sz ok st = (NULL, st).
Proof.
  intros Ha Hsz Hfind. unfold mem_resize.
  apply Z.eqb_neq in Ha. apply Z.eqb_neq in Hsz. rewrite Ha, Hsz.
  rewrite (resize_scan_not_found _ sz ok _ Hfind). reflexivity.
Qed.

Lemma mem_resize_unknown_address_witness :
  mem_resize 4100 10 true (snd (mem_alloc 30 true pool100))
  = (NULL, snd (mem_alloc 30 true pool100)).
Proof.
  apply mem_resize_unknown_address; [discriminate | discriminate | reflexivity].
Defined.

Lemma resize_scan_move_size (off sz : Z) (ok : bool) (b : MemBlock)
  (l : list MemBlock) :
  forall old, find_block off l = Some b ->
    resize_scan off sz ok l = RMove old ->
    old = size b /\ size b < sz.
Proof.
  induction l as [|curr rest IH]; intros old Hfind Hscan; simpl in *.
  - discriminate.
  - destruct (offset curr =? off); simpl in Hscan.
    + injection Hfind as ->.
      destruct (sz <=? size b) eqn:Hle.
      * unfold shrink_to in Hscan.
        destruct (sz <? size b); [destruct ok|]; discriminate.
      * apply Z.leb_gt in Hle.
        destruct rest as [|n t].
        -- injection Hscan as <-. split; [reflexivity | exact Hle].
        -- destruct (is_free n && (sz <=? wrap (size b + size n))).
           ++ unfold shrink_to in Hscan.
              destruct (sz <? size (set_size b (wrap (size b + size n))));
                [destruct ok|]; discriminate.
           ++ injection Hscan as <-. split; [reflexivity | exact Hle].
    + destruct (resize_scan off sz ok rest) as [r|r|o|] eqn:Hrec;
        simpl in Hscan; try discriminate.
      injection Hscan as <-. apply (IH o Hfind eq_refl).
Qed.

Lemma mem_free_bytes (a : Z) (st : pool) :
  pool_bytes (mem_free a st) = pool_bytes st /\
  memory_pool (mem_free a st) = memory_pool st.
Proof.
  unfold mem_free. destruct (a =? NULL); split; reflexivity.
Qed.

Lemma memcpy_copied (dst src n : Z) (m : Z -> Z) (i : Z) :
  0 <= i < n -> memcpy dst src n m (dst + i) = m (src + i).
Proof.
  intros Hi. unfold memcpy.
  assert (H1 : (dst <=? dst + i) = true) by (apply Z.leb_le; lia).
  assert (H2 : (dst + i <? dst + n) = true) by (apply Z.ltb_lt; lia).
  rewrite H1, H2. simpl. f_equal. lia.
Qed.

(** X11.  Whenever [mem_resize] of the block [b] at a non-null address
    [a] to a non-zero size answers a non-null address [r], in place or
    after relocation, the first [min (size b) sz] bytes at [r] are the
    bytes that were at [a]. *)
Theorem mem_resize_keeps_contents (st st' : pool) (a sz r : Z) (ok : bool)
  (b : MemBlock) :
  a <> NULL -> sz <> 0 ->
  find_block (offset_of st a) (block_list st) = Some b ->
  mem_resize a sz ok st = (r, st') -> r <> NULL ->
  forall i, 0 <= i < Z.min (size b) sz ->
            pool_bytes st' (offset_of st' r + i)
            = pool_bytes st (offset_of st a + i).
Proof.
  intros Ha Hsz Hfind Hres Hr i Hi. unfold mem_resize in Hres.
  apply Z.eqb_neq in Ha. apply Z.eqb_neq in Hsz. rewrite Ha, Hsz in Hres.
  destruct (resize_scan (offset_of st a) sz ok (block_list st))
    as [l|l|old|] eqn:Hscan.
  - injection Hres as <- <-. reflexivity.
  - injection Hres as <- _. contradiction.
  - destruct (resize_scan_move_size _ _ _ _ _ _ Hfind Hscan) as (-> & _).
    destruct (mem_alloc_frame sz ok st) as (Hbase & _ & Hbytes).
    destruct (mem_alloc sz ok st) as [q st1]. simpl in Hbase, Hbytes.
    destruct (q =? NULL).
    + injection Hres as <- _. contradiction.
    + injection Hres as <- <-.
      set (X := with_bytes st1
                  (memcpy (offset_of st1 q) (offset_of st1 a)
                          (Z.min (size b) sz) (pool_bytes st1))).
      destruct (mem_free_bytes a X) as (Hfb & Hfp).
      rewrite Hfb.
      replace (offset_of (mem_free a X) q) with (offset_of st1 q)
        by (unfold offset_of; rewrite Hfp; reflexivity).
      replace (offset_of st a) with (offset_of st1 a)
        by (unfold offset_of; rewrite Hbase; reflexivity).
      subst X. simpl pool_bytes. rewrite <- Hbytes.
      apply memcpy_copied. exact Hi.
  - injection Hres as <- _. contradiction.
Qed.

Lemma mem_resize_keeps_contents_witness :
  pool_bytes
    (snd (mem_resize 4096 40 true
            (with_bytes (run [Allocate 30 true; Allocate 20 true] pool100)
                        (fun k => k + 7))))
    (offset_of
       (snd (mem_resize 4096 40 true
               (with_bytes (run [Allocate 30 true; Allocate 20 true] pool100)
                           (fun k => k + 7))))
       4146 + 3)
  = pool_bytes
      (with_bytes (run [Allocate 30 true; Allocate 20 true] pool100)
                  (fun k => k + 7))
      (offset_of
         (with_bytes (run [Allocate 30 true; Allocate 20 true] pool100)
                     (fun k => k + 7))
         4096 + 3).
Proof.
  apply (mem_resize_keeps_contents
           (with_bytes (run [Allocate 30 true; Allocate 20 true] pool100)
                       (fun k => k + 7))
           _ 4096 40 4146 true (mkBlock 0 30 false)).
  - discriminate.
  - discriminate.
  - reflexivity.
  - reflexivity.
  - discriminate.
  - simpl. lia.
Defined.

Lemma tiles_find (l : list MemBlock) :
  forall s e u, tiles s l e -> In u l -> find_block (offset u) l = Some u.
Proof.
  induction l as [|x r IH]; intros s e u Ht Hin.
  - contradiction.
  - destruct Ht as (Ho & Hp & Hr). simpl. destruct Hin as [-> | Hin].
    + rewrite Z.eqb_refl. reflexivity.
    + destruct (tiles_In _ _ _ _ Hr Hin) as (Hlo & _).
      assert (Hne : (offset x =? offset u) = false) by (apply Z.eqb_neq; lia).
      rewrite Hne. apply (IH _ _ u Hr Hin).
Qed.

(** X12.  In a well-formed pool, when [mem_resize] of the used block [b]
    at [a] answers a non-null address other than [a], the block has been
    relocated: the request was larger than [b], the new block of [sz]
    bytes is marked used and does not overlap the old one, and the bytes
    of the old block lie inside a free descriptor. *)
Theorem mem_resize_relocation (st st' : pool) (a sz r : Z) (ok : bool)
  (b : MemBlock) :
  pool_ok st -> a <> NULL -> 0 < sz ->
  find_block (offset_of st a) (block_list st) = Some b -> is_free b = false ->
  mem_resize a sz ok st = (r, st') -> r <> NULL -> r <> a ->
  size b < sz /\
  exists off,
    r = memory_pool st + off /\ 0 <= off /\ off + sz <= pool_size st /\
    (off + sz <= offset b \/ offset b + size b <= off) /\
    In (mkBlock off sz false) (block_list st') /\
    exists f,
      In f (block_list st') /\ is_free f = true /\
      offset f <= offset b /\ offset b + size b <= offset f + size f.
Proof.
  intros Hok Ha Hsz Hfind Hb Hres Hr Hra. unfold mem_resize in Hres.
  assert (Haz : (a =? NULL) = false) by (apply Z.eqb_neq; exact Ha).
  assert (Hnz : (sz =? 0) = false) by (apply Z.eqb_neq; lia).
  rewrite Haz, Hnz in Hres.
  destruct (resize_scan (offset_of st a) sz ok (block_list st))
    as [l|l|old|] eqn:Hscan.
  - injection Hres as <- _. contradiction.
  - injection Hres as <- _. contradiction.
  - destruct (resize_scan_move_size _ _ _ _ _ _ Hfind Hscan) as (-> & Hlt).
    split; [exact Hlt|].
    pose proof (mem_alloc_ledger_ok sz ok st ltac:(lia) (proj1 Hok)) as Hok1.
    destruct (mem_alloc_frame sz ok st) as (Hbase & _ & _).
    destruct (mem_alloc sz ok st) as [q st1] eqn:Halloc. simpl in Hok1, Hbase.
    destruct (q =? NULL) eqn:Hq.
    + injection Hres as <- _. contradiction.
    + apply Z.eqb_neq in Hq. injection Hres as <- <-.
      destruct (mem_alloc_fresh st st1 sz q ok Hok Hsz Halloc Hq)
        as (off & Hptr & Hlo & Hhi & Hnew & Hold).
      destruct (find_block_split _ _ _ Hfind) as (fr & af & Hl & _ & Ho).
      assert (Hin : In b (block_list st)).
      { rewrite Hl. apply in_or_app. right. left. reflexivity. }
      destruct (Hold b Hin Hb) as (Hin1 & Hdisj).
      destruct (tiles_In _ _ _ _ (proj2 Hok1) Hin1) as (_ & Hbpos & _).
      set (X := with_bytes st1
                  (memcpy (offset_of st1 q) (offset_of st1 a)
                          (Z.min (size b) sz) (pool_bytes st1))).
      assert (HoX : offset_of X a = offset b).
      { unfold offset_of, X. simpl. rewrite Hbase. symmetry. exact Ho. }
      assert (HfX : find_block (offset_of X a) (block_list X) = Some b).
      { rewrite HoX. apply (tiles_find _ _ _ b (proj2 Hok1) Hin1). }
      exists off. repeat split; try assumption.
      * destruct Hdisj as [Hd | Hd]; [right | left]; lia.
      * unfold mem_free. rewrite Haz. simpl block_list.
        apply (free_scan_keeps_used _ _ None); [exact Hnew | reflexivity|].
        rewrite HoX. simpl. destruct Hdisj; lia.
      * apply (mem_free_range X a b Ha Hok1 HfX Hb).
  - injection Hres as <- _. contradiction.
Qed.

Lemma mem_resize_relocation_witness :
  size (mkBlock 0 30 false) < 40 /\
  exists off,
    4146 = memory_pool (run [Allocate 30 true; Allocate 20 true] pool100) + off
    /\ 0 <= off
    /\ off + 40 <= pool_size (run [Allocate 30 true; Allocate 20 true] pool100)
    /\ (off + 40 <= offset (mkBlock 0 30 false) \/
        offset (mkBlock 0 30 false) + size (mkBlock 0 30 false) <= off)
    /\ In (mkBlock off 40 false)
          (block_list
             (snd (mem_resize 4096 40 true
                     (run [Allocate 30 true; Allocate 20 true] pool100))))
    /\ exists f,
         In f (block_list
                 (snd (mem_resize 4096 40 true
                         (run [Allocate 30 true; Allocate 20 true] pool100))))
         /\ is_free f = true
         /\ offset f <= offset (mkBlock 0 30 false)
         /\ offset (mkBlock 0 30 false) + size (mkBlock 0 30 false)
            <= offset f + size f.
Proof.
  apply (mem_resize_relocation
           (run [Allocate 30 true; Allocate 20 true] pool100) _
           4096 40 4146 true (mkBlock 0 30 false)).
  - unfold pool_ok, ledger_ok, arena_ok, SIZE_MAX1. simpl. repeat split; lia.
  - discriminate.
  - lia.
  - reflexivity.
  - reflexivity.
  - reflexivity.
  - discriminate.
  - discriminate.
Defined.

Lemma alloc_scan_keeps_used (sz : Z) (ok : bool) (l : list MemBlock) :
  forall off l' u, alloc_scan sz ok l = Some (off, l') ->
    In u l -> is_free u = false -> In u l'.
Proof.
  induction l as [|curr rest IH]; intros off l' u Hscan Hin Hu.
  - contradiction.
  - simpl in Hscan.
    destruct (negb (is_free curr) || (size curr <? sz)) eqn:Hskip.
    + destruct (alloc_scan sz ok rest) as [[o r']|] eqn:Hrec; [|discriminate].
      injection Hscan as <- <-. destruct Hin as [-> | Hin].
      * left. reflexivity.
      * right. apply (IH o r' u eq_refl Hin Hu).
    + apply orb_false_elim in Hskip. destruct Hskip as (Hfree & _).
      apply negb_false_iff in Hfree.
      destruct Hin as [-> | Hin]; [congruence|].
      destruct (sz <? size curr).
      * destruct ok; [|discriminate]. injection Hscan as <- <-.
        right. right. exact Hin.
      * injection Hscan as <- <-. right. exact Hin.
Qed.

Lemma mem_alloc_keeps_used (sz : Z) (ok : bool) (st : pool) (u : MemBlock) :
  In u (block_list st) -> is_free u = false ->
  In u (block_list (snd (mem_alloc sz ok st))).
Proof.
  intros Hin Hu. unfold mem_alloc. destruct (sz =? 0).
  - destruct (first_free (block_list st)); exact Hin.
  - destruct (alloc_scan sz ok (block_list st)) as [[o l]|] eqn:Hscan;
      [|exact Hin].
    apply (alloc_scan_keeps_used sz ok _ o l u Hscan Hin Hu).
Qed.

Lemma shrink_to_keeps (curr : MemBlock) (sz : Z) (ok : bool)
  (rest l' : list MemBlock) (u : MemBlock) :
  outcome_chain (shrink_to curr sz ok rest) = Some l' -> In u rest -> In u l'.
Proof.
  unfold shrink_to. intros Hout Hin.
  destruct (sz <? size curr); [destruct ok|]; injection Hout as <-.
  - right. right. exact Hin.
  - right. exact Hin.
  - right. exact Hin.
Qed.

Lemma resize_scan_keeps_used (off sz : Z) (ok : bool) (l : list MemBlock) :
  forall l' u, outcome_chain (resize_scan off sz ok l) = Some l' ->
    In u l -> is_free u = false -> offset u <> off -> In u l'.
Proof.
  induction l as [|curr rest IH]; intros l' u Hout Hin Hu Hoff.
  - contradiction.
  - simpl in Hout. destruct (offset curr =? off) eqn:Hhere; simpl in Hout.
    + apply Z.eqb_eq in Hhere.
      destruct Hin as [-> | Hin]; [contradiction|].
      destruct (sz <=? size curr).
      * apply (shrink_to_keeps curr sz ok rest l' u Hout Hin).
      * destruct rest as [|n t]; [discriminate|].
        destruct (is_free n && (sz <=? wrap (size curr + size n))) eqn:Hg;
          [|discriminate].
        apply andb_prop in Hg. destruct Hg as (Hn & _).
        destruct Hin as [-> | Hin]; [congruence|].
        apply (shrink_to_keeps _ sz ok t l' u Hout Hin).
    + destruct (resize_scan off sz ok rest) as [r|r|o|] eqn:Hrec;
        simpl in Hout; try discriminate; injection Hout as <-;
        (destruct Hin as [-> | Hin];
         [left; reflexivity | right; apply (IH r u eq_refl Hin Hu Hoff)]).
Qed.

(** X13.  [mem_resize] never disturbs another allocation: whatever its
    arguments and the state of the pool, every descriptor in use at an
    offset other than that of the address passed in is still in the
    ledger, unchanged, after the call. *)
Theorem mem_resize_keeps_other_blocks (st : pool) (a sz : Z) (ok : bool)
  (u : MemBlock) :
  In u (block_list st) -> is_free u = false ->
  offset u <> offset_of st a ->
  In u (block_list (snd (mem_resize a sz ok st))).
Proof.
  intros Hin Hu Hoff. unfold mem_resize.
  destruct (a =? NULL) eqn:Haz; [apply mem_alloc_keeps_used; assumption|].
  destruct (sz =? 0).
  - simpl. unfold mem_free. rewrite Haz. simpl.
    apply (free_scan_keeps_used _ _ None u Hin Hu Hoff).
  - destruct (resize_scan (offset_of st a) sz ok (block_list st))
      as [l|l|old|] eqn:Hscan; simpl.
    + apply (resize_scan_keeps_used (offset_of st a) sz ok (block_list st) l u);
        try assumption.
      rewrite Hscan. reflexivity.
    + apply (resize_scan_keeps_used (offset_of st a) sz ok (block_list st) l u);
        try assumption.
      rewrite Hscan. reflexivity.
    + pose proof (mem_alloc_keeps_used sz ok st u Hin Hu) as Hin1.
      destruct (mem_alloc_frame sz ok st) as (Hbase & _ & _).
      destruct (mem_alloc sz ok st) as [q st1]. simpl in Hin1, Hbase.
      destruct (q =? NULL); simpl; [exact Hin1|].
      unfold mem_free. rewrite Haz. simpl.
      apply (free_scan_keeps_used _ _ None u Hin1 Hu).
      unfold offset_of in *. simpl. rewrite Hbase. exact Hoff.
    + exact Hin.
Qed.

Lemma mem_resize_keeps_other_blocks_witness :
  In (mkBlock 30 20 false)
     (block_list
        (snd (mem_resize 4096 40 true
                (run [Allocate 30 true; Allocate 20 true] pool100)))).
Proof.
  apply mem_resize_keeps_other_blocks.
  - right. left. reflexivity.
  - reflexivity.
  - discriminate.
Defined.

(** ** Teardown, boundaries, and the no-adjacent-free invariant *)

(** X14.  After [mem_deinit] nothing is handed out and nothing changes:
    [mem_alloc] and [mem_resize] answer [NULL] for every argument and
    [mem_free] does nothing, each leaving the torn-down state as it is. *)
Theorem nothing_served_after_deinit (st : pool) :
  (forall sz ok, mem_alloc sz ok (mem_deinit st) = (NULL, mem_deinit st)) /\
  (forall a, mem_free a (mem_deinit st) = mem_deinit st) /\
  (forall a sz ok, mem_resize a sz ok (mem_deinit st) = (NULL, mem_deinit st)).
Proof.
  assert (Halloc : forall sz ok,
             mem_alloc sz ok (mem_deinit st) = (NULL, mem_deinit st)).
  { intros sz ok. unfold mem_alloc. destruct (sz =? 0); reflexivity. }
  assert (Hfree : forall a, mem_free a (mem_deinit st) = mem_deinit st).
  { intros a. unfold mem_free. destruct (a =? NULL); reflexivity. }
  repeat split; try assumption.
  intros a sz ok. unfold mem_resize.
  destruct (a =? NULL); [apply Halloc|].
  destruct (sz =? 0); [rewrite Hfree|]; reflexivity.
Qed.

Lemma oversize_never_fits (l : list MemBlock) (sz : Z) :
  forall s e, tiles s l e -> 0 <= s -> e < sz ->
              Forall (fun x => fits sz x = false) l.
Proof.
  intros s e Ht Hs He. apply Forall_forall. intros x Hin.
  destruct (tiles_In _ _ _ _ Ht Hin) as (Hlo & _ & Hhi).
  unfold fits. apply andb_false_iff. right. apply Z.leb_gt. lia.
Qed.

(** X15.  Right after [mem_init] with capacity [c], a request for the
    whole arena succeeds, with or without bookkeeping memory, and returns
    the address of the arena itself; after it every request for at least
    one byte fails until something is released. *)
Theorem whole_arena_boundary
  (c p : Z) (bytes : Z -> Z) (st0 : pool) (ok : bool) :
  0 < c < SIZE_MAX1 -> is_size_t p ->
  mem_init c p bytes true = Some st0 ->
  mem_alloc c ok st0 = (p, with_blocks st0 [mkBlock 0 c false]) /\
  forall n ok', 0 < n ->
    mem_alloc n ok' (with_blocks st0 [mkBlock 0 c false])
    = (NULL, with_blocks st0 [mkBlock 0 c false]).
Proof.
  intros Hc Hp Hinit. unfold mem_init in Hinit.
  destruct (p =? NULL); [discriminate|]. injection Hinit as <-.
  assert (Hcz : (c =? 0) = false) by (apply Z.eqb_neq; lia).
  split.
  - unfold mem_alloc. rewrite Hcz. simpl.
    assert (H1 : (c <? c) = false) by apply Z.ltb_irrefl.
    rewrite H1. simpl. unfold ptr_of. simpl.
    rewrite Z.add_0_r, (wrap_small p Hp). reflexivity.
  - intros n ok' Hn. unfold mem_alloc.
    assert (Hnz : (n =? 0) = false) by (apply Z.eqb_neq; lia).
    rewrite Hnz. reflexivity.
Qed.

Lemma whole_arena_boundary_witness :
  mem_alloc 100 false pool100
  = (4096, with_blocks pool100 [mkBlock 0 100 false]) /\
  forall n ok', 0 < n ->
    mem_alloc n ok' (with_blocks pool100 [mkBlock 0 100 false])
    = (NULL, with_blocks pool100 [mkBlock 0 100 false]).
Proof.
  apply (whole_arena_boundary 100 4096 zero_bytes pool100 false).
  - unfold SIZE_MAX1. lia.
  - unfold is_size_t, SIZE_MAX1. lia.
  - reflexivity.
Defined.

(** X16.  In a well-formed ledger a request for more bytes than the arena
    holds always fails and changes nothing. *)
Theorem mem_alloc_oversize (st : pool) (sz : Z) (ok : bool) :
  ledger_ok st -> pool_size st < sz -> mem_alloc sz ok st = (NULL, st).
Proof.
  intros (Hc & Ht) Hsz. unfold mem_alloc.
  assert (Hnz : (sz =? 0) = false) by (apply Z.eqb_neq; lia).
  rewrite Hnz.
  rewrite (alloc_scan_none sz ok _
             (oversize_never_fits _ sz 0 (pool_size st) Ht ltac:(lia) Hsz)).
  reflexivity.
Qed.

Lemma mem_alloc_oversize_witness :
  mem_alloc 101 true pool100 = (NULL, pool100).
Proof.
  apply mem_alloc_oversize; [exact pool100_ledger_ok | simpl; lia].
Defined.

(** X17.  After [mem_init], sequences of [mem_alloc] and [mem_free] calls
    with any arguments never leave two adjacent descriptors both free. *)
Theorem no_adjacent_free_without_resize
  (c p : Z) (bytes : Z -> Z) (ok : bool) (st0 : pool) (cs : list call) :
  mem_init c p bytes ok = Some st0 -> Forall no_resize cs ->
  adjacent_free (block_list (run cs st0)) = false.
Proof. exact (alloc_release_no_adjacent_free c p bytes ok st0 cs). Qed.

Lemma no_adjacent_free_without_resize_witness :
  adjacent_free
    (block_list
       (run [Allocate 30 true; Allocate 20 true; Allocate 10 true;
             Release 4126; Release 4146; Allocate 25 true; Release 4096]
            pool100)) = false.
Proof.
  apply (no_adjacent_free_without_resize 100 4096 zero_bytes true pool100).
  - reflexivity.
  - repeat constructor.
Defined.

(** * The linked list on top of the pool *)

Section LinkedListProofs.

Variable sizeof_Node : Z.
Variable store_node : Z -> Z -> (Z -> Z) -> (Z -> Z).
Variable store_next : Z -> Z -> (Z -> Z) -> (Z -> Z).
Variable load_next : Z -> (Z -> Z) -> Z.
Variable destroy_lock : Z -> (Z -> Z) -> (Z -> Z).
Hypothesis sizeof_Node_pos : 0 < sizeof_Node.

Lemma link_last_app (n : Node) (l : list Node) : link_last n l = l ++ [n].
Proof.
  induction l as [|cur rest IH]; simpl; [|rewrite IH]; reflexivity.
Qed.

(** ** Stores into the arena leave the ledger alone *)


Lemma same_ledger_bytes (st : pool) (m : Z -> Z) :
  same_ledger (with_bytes st m) st.
Proof. repeat split. Qed.

Lemma mem_free_with_bytes (a : Z) (st : pool) (m : Z -> Z) :
  mem_free a (with_bytes st m) = with_bytes (mem_free a st) m.
Proof. unfold mem_free. destruct (a =? NULL); reflexivity. Qed.

Lemma list_ok_bytes (l : list Node) (st : pool) (m : Z -> Z) :
  list_ok sizeof_Node (l, st) -> list_ok sizeof_Node (l, with_bytes st m).
Proof. intros H. exact H. Qed.

(** ** Allocation of a node *)

Lemma new_node_none (d : Z) (ok : bool) (st st' : pool) :
  pool_ok st -> new_node sizeof_Node store_node d ok st = (None, st') ->
  st' = st.
Proof.
  intros Hok Hnew. unfold new_node in Hnew.
  pose proof (mem_alloc_null_unchanged st sizeof_Node ok Hok) as Hsame.
  destruct (mem_alloc sizeof_Node ok st) as [p st1]. simpl in Hsame.
  destruct (p =? NULL) eqn:Hp; [|discriminate].
  injection Hnew as <-. apply Z.eqb_eq in Hp. exact (Hsame Hp).
Qed.

Lemma new_node_some (d : Z) (ok : bool) (st st' : pool) (n : Node) :
  new_node sizeof_Node store_node d ok st = (Some n, st') ->
  exists st1 m,
    mem_alloc sizeof_Node ok st = (node_addr n, st1) /\
    st' = with_bytes st1 m /\
    n = mkNode (node_addr n) d /\ node_addr n <> NULL.
Proof.
  intros Hnew. unfold new_node in Hnew.
  destruct (mem_alloc sizeof_Node ok st) as [p st1].
  destruct (p =? NULL) eqn:Hp; [discriminate|].
  injection Hnew as <- <-. apply Z.eqb_neq in Hp. simpl.
  exists st1, (store_node (offset_of st1 p) d (pool_bytes st1)).
  repeat split. exact Hp.
Qed.

(** [new_node] in terms of the [mem_alloc] it makes. *)
Lemma new_node_alloc (d : Z) (ok : bool) (st st1 : pool) (p : Z) :
  mem_alloc sizeof_Node ok st = (p, st1) ->
  (p = NULL -> new_node sizeof_Node store_node d ok st = (None, st1)) /\
  (p <> NULL ->
   exists m, new_node sizeof_Node store_node d ok st
             = (Some (mkNode p d), with_bytes st1 m)).
Proof.
  intros Halloc. unfold new_node. rewrite Halloc. split.
  - intros ->. reflexivity.
  - intros Hp. apply Z.eqb_neq in Hp. rewrite Hp.
    exists (store_node (offset_of st1 p) d (pool_bytes st1)). reflexivity.
Qed.

Lemma node_live_offset (st : pool) (n : Node) (b : MemBlock) :
  pool_ok st -> In b (block_list st) ->
  node_addr n = memory_pool st + offset b ->
  offset_of st (node_addr n) = offset b /\ node_addr n <> NULL.
Proof.
  intros ((Hc & Ht) & Harena) Hin Haddr.
  destruct (tiles_In _ _ _ _ Ht Hin) as (Hlo & Hpos & Hhi).
  destruct (ptr_of_small st (offset b) Harena ltac:(lia)) as (Hptr & Hnn & Hoff).
  rewrite Haddr, <- Hptr. split; assumption.
Qed.

(** What the allocation of a node does to a list that is in order. *)
Lemma alloc_node_list_ok (hd : list Node) (st st' : pool) (d : Z) (ok : bool)
  (n : Node) :
  list_ok sizeof_Node (hd, st) ->
  mem_alloc sizeof_Node ok st = (node_addr n, st') -> node_addr n <> NULL ->
  list_ok sizeof_Node (n :: hd, st').
Proof.
  intros (Hok & Hadj & Hnd & Hlive) Halloc Hnn. simpl in *.
  destruct (mem_alloc_fresh st st' sizeof_Node (node_addr n) ok
              Hok sizeof_Node_pos Halloc Hnn)
    as (off & Hptr & Hlo & Hhi & Hnew_in & Hold).
  destruct (mem_alloc_frame sizeof_Node ok st) as (Hbase & Hsize & _).
  rewrite Halloc in Hbase, Hsize. simpl in Hbase, Hsize.
  assert (Hok' : pool_ok st').
  { split.
    - pose proof (mem_alloc_ledger_ok sizeof_Node ok st ltac:(lia) (proj1 Hok)) as H.
      rewrite Halloc in H. exact H.
    - unfold arena_ok. rewrite Hbase, Hsize. exact (proj2 Hok). }
  assert (Hadj' : adjacent_free (block_list st') = false).
  { pose proof (step_no_resize_adjacent st (Allocate sizeof_Node ok) I Hadj) as H.
    simpl in H. rewrite Halloc in H. exact H. }
  unfold list_ok. simpl.
  split; [exact Hok' | split; [exact Hadj' | split]].
  - constructor; [|exact Hnd].
    intros Hin. apply in_map_iff in Hin. destruct Hin as (m & Hm & Hmin).
    rewrite Forall_forall in Hlive.
    destruct (Hlive m Hmin) as (u & Hu & Hused & Hus & Hua).
    destruct (Hold u Hu Hused) as (_ & Hdisj).
    rewrite Hm, Hptr in Hua. lia.
  - constructor.
    + exists (mkBlock off sizeof_Node false). simpl.
      repeat split; [exact Hnew_in | rewrite Hbase; exact Hptr].
    + apply Forall_forall. intros m Hmin.
      rewrite Forall_forall in Hlive.
      destruct (Hlive m Hmin) as (u & Hu & Hused & Hus & Hua).
      exists u. repeat split; try assumption.
      * apply (Hold u Hu Hused).
      * rewrite Hbase. exact Hua.
Qed.

Lemma new_node_list_ok (hd : list Node) (st st' : pool) (d : Z) (ok : bool)
  (n : Node) :
  list_ok sizeof_Node (hd, st) ->
  new_node sizeof_Node store_node d ok st = (Some n, st') ->
  list_ok sizeof_Node (n :: hd, st').
Proof.
  intros Hok Hnew.
  destruct (new_node_some d ok st st' n Hnew) as (st1 & m & Halloc & -> & _ & Hnn).
  apply list_ok_bytes.
  apply (alloc_node_list_ok hd st st1 d ok n Hok Halloc Hnn).
Qed.

Lemma list_ok_perm (l l' : list Node) (st : pool) :
  Permutation l l' -> list_ok sizeof_Node (l, st) ->
  list_ok sizeof_Node (l', st).
Proof.
  intros Hperm (Hok & Hadj & Hnd & Hlive). simpl in *.
  unfold list_ok. simpl.
  split; [exact Hok | split; [exact Hadj | split]].
  - apply (Permutation_NoDup (Permutation_map node_addr Hperm) Hnd).
  - apply (Permutation_Forall Hperm Hlive).
Qed.

Lemma list_ok_tail (n : Node) (l : list Node) (st : pool) :
  list_ok sizeof_Node (n :: l, st) -> list_ok sizeof_Node (l, st).
Proof.
  intros (Hok & Hadj & Hnd & Hlive). simpl in *.
  unfold list_ok. simpl.
  split; [exact Hok | split; [exact Hadj | split]].
  - inversion Hnd; assumption.
  - inversion Hlive; assumption.
Qed.

(** ** Linking and unlinking *)

Lemma link_after_found (prev_node : Z) (n x : Node) (l1 l2 : list Node) :
  Forall (fun y => node_addr y <> prev_node) l1 -> node_addr x = prev_node ->
  link_after prev_node n (l1 ++ x :: l2) = l1 ++ x :: n :: l2.
Proof.
  intros Hno Hx. induction Hno as [|y l1 Hy _ IH]; simpl.
  - apply Z.eqb_eq in Hx. rewrite Hx. reflexivity.
  - apply Z.eqb_neq in Hy. rewrite Hy, IH. reflexivity.
Qed.

Lemma link_after_missing (prev_node : Z) (n : Node) (l : list Node) :
  Forall (fun y => node_addr y <> prev_node) l ->
  link_after prev_node n l = l.
Proof.
  intros Hno. induction Hno as [|y l Hy _ IH]; simpl.
  - reflexivity.
  - apply Z.eqb_neq in Hy. rewrite Hy, IH. reflexivity.
Qed.

Lemma addr_split (a : Z) (l : list Node) :
  Forall (fun y => node_addr y <> a) l \/
  exists l1 x l2,
    l = l1 ++ x :: l2 /\ Forall (fun y => node_addr y <> a) l1 /\
    node_addr x = a.
Proof.
  induction l as [|y l IH].
  - left. constructor.
  - destruct (Z.eq_dec (node_addr y) a) as [Hy | Hy].
    + right. exists [], y, l. repeat split; [constructor | exact Hy].
    + destruct IH as [Hno | (l1 & x & l2 & -> & Hno & Hx)].
      * left. constructor; assumption.
      * right. exists (y :: l1), x, l2.
        repeat split; [constructor; assumption | exact Hx].
Qed.

Lemma link_after_perm (prev_node : Z) (n : Node) (l : list Node) :
  link_after prev_node n l = l \/ Permutation (n :: l) (link_after prev_node n l).
Proof.
  destruct (addr_split prev_node l) as [Hno | (l1 & x & l2 & -> & Hno & Hx)].
  - left. apply link_after_missing. exact Hno.
  - right. rewrite (link_after_found prev_node n x l1 l2 Hno Hx).
    change (l1 ++ x :: n :: l2) with (l1 ++ [x] ++ n :: l2).
    rewrite app_assoc.
    change (l1 ++ x :: l2) with (l1 ++ [x] ++ l2). rewrite app_assoc.
    apply Permutation_middle.
Qed.

Lemma walk_to_pred_found (next_node : Z) (x : Node) (l2 : list Node) :
  forall l1 c, Forall (fun y => node_addr y <> next_node) l1 ->
    node_addr x = next_node ->
    exists pre cur,
      walk_to_pred next_node (c :: l1 ++ x :: l2) = Some (pre, cur, x :: l2) /\
      pre ++ [cur] = c :: l1.
Proof.
  induction l1 as [|y l1 IH]; intros c Hno Hx.
  - exists [], c. simpl. apply Z.eqb_eq in Hx. rewrite Hx. split; reflexivity.
  - inversion Hno as [|? ? Hy Hno']; subst.
    destruct (IH y Hno' eq_refl) as (pre & cur & Hwalk & Hpre).
    exists (c :: pre), cur. split; [|simpl; rewrite Hpre; reflexivity].
    change (walk_to_pred (node_addr x) (c :: (y :: l1) ++ x :: l2))
      with (if head_is (node_addr x) ((y :: l1) ++ x :: l2)
            then Some ([], c, (y :: l1) ++ x :: l2)
            else match walk_to_pred (node_addr x) (y :: l1 ++ x :: l2) with
                 | Some (pre, c', post) => Some (c :: pre, c', post)
                 | None => None
                 end).
    simpl head_is. apply Z.eqb_neq in Hy. rewrite Hy, Hwalk. reflexivity.
Qed.

Lemma walk_to_pred_missing (next_node : Z) (l : list Node) :
  Forall (fun y => node_addr y <> next_node) l ->
  walk_to_pred next_node l = None.
Proof.
  intros Hno. induction Hno as [|y l Hy Hl IH]; simpl.
  - reflexivity.
  - rewrite IH. destruct Hl as [|z l Hz _]; simpl; [reflexivity|].
    apply Z.eqb_neq in Hz. rewrite Hz. reflexivity.
Qed.

Lemma walk_to_pred_app (next_node : Z) (l : list Node) :
  forall pre cur post, walk_to_pred next_node l = Some (pre, cur, post) ->
                       l = pre ++ cur :: post.
Proof.
  induction l as [|c rest IH]; intros pre cur post Hwalk; simpl in Hwalk.
  - discriminate.
  - destruct (head_is next_node rest).
    + injection Hwalk as <- <- <-. reflexivity.
    + destruct (walk_to_pred next_node rest) as [[[pre' c'] post']|];
        [|discriminate].
      injection Hwalk as <- <- <-. simpl.
      rewrite (IH pre' c' post' eq_refl). reflexivity.
Qed.

Lemma unlink_found (d : Z) (x : Node) (l2 : list Node) :
  forall l1 prev, Forall (fun y => data y <> d) l1 -> data x = d ->
    exists pre p,
      unlink d prev (l1 ++ x :: l2) = Some (pre, p, x, l2) /\
      pre ++ from_prev p [] = from_prev prev l1.
Proof.
  induction l1 as [|y l1 IH]; intros prev Hno Hx.
  - exists [], prev. simpl. apply Z.eqb_eq in Hx. rewrite Hx. simpl.
    split; [reflexivity|]. destruct prev; reflexivity.
  - inversion Hno as [|? ? Hy Hno']; subst.
    destruct (IH (Some y) Hno' eq_refl) as (pre & p & Hun & Hpre).
    exists (from_prev prev pre), p. simpl.
    apply Z.eqb_neq in Hy. rewrite Hy. simpl. rewrite Hun.
    split; [destruct prev; reflexivity|].
    simpl in Hpre. destruct prev; simpl; rewrite Hpre; reflexivity.
Qed.

Lemma unlink_missing (d : Z) (l : list Node) :
  forall prev, Forall (fun y => data y <> d) l -> unlink d prev l = None.
Proof.
  induction l as [|y l IH]; intros prev Hno; simpl.
  - reflexivity.
  - inversion Hno as [|? ? Hy Hno']; subst.
    apply Z.eqb_neq in Hy. rewrite Hy. simpl. rewrite (IH (Some y) Hno').
    reflexivity.
Qed.

Lemma data_split (d : Z) (l : list Node) :
  Forall (fun y => data y <> d) l \/
  exists l1 x l2,
    l = l1 ++ x :: l2 /\ Forall (fun y => data y <> d) l1 /\ data x = d.
Proof.
  induction l as [|y l IH].
  - left. constructor.
  - destruct (Z.eq_dec (data y) d) as [Hy | Hy].
    + right. exists [], y, l. repeat split; [constructor | exact Hy].
    + destruct IH as [Hno | (l1 & x & l2 & -> & Hno & Hx)].
      * left. constructor; assumption.
      * right. exists (y :: l1), x, l2.
        repeat split; [constructor; assumption | exact Hx].
Qed.
(** ** The operations, seen from the list and the ledger *)

Lemma list_insert_shape (d : Z) (ok : bool) (hd : list Node)
  (st st1 : pool) (p : Z) :
  mem_alloc sizeof_Node ok st = (p, st1) -> p <> NULL ->
  exists m,
    list_insert sizeof_Node store_node store_next d ok (hd, st)
    = (hd ++ [mkNode p d], with_bytes st1 m).
Proof.
  intros Halloc Hp. unfold list_insert.
  destruct (proj2 (new_node_alloc d ok st st1 p Halloc) Hp) as (m & ->).
  rewrite link_last_app. destruct hd as [|h rest]; eexists; reflexivity.
Qed.

Lemma list_insert_full (d : Z) (ok : bool) (hd : list Node) (st st1 : pool) :
  pool_ok st -> mem_alloc sizeof_Node ok st = (NULL, st1) ->
  list_insert sizeof_Node store_node store_next d ok (hd, st) = (hd, st).
Proof.
  intros Hok Halloc. unfold list_insert.
  rewrite (proj1 (new_node_alloc d ok st st1 NULL Halloc) eq_refl).
  pose proof (mem_alloc_null_unchanged st sizeof_Node ok Hok) as Hsame.
  rewrite Halloc in Hsame. simpl in Hsame. rewrite (Hsame eq_refl).
  reflexivity.
Qed.

Lemma list_delete_shape (d : Z) (x : Node) (l1 l2 : list Node) (st : pool) :
  Forall (fun y => data y <> d) l1 -> data x = d ->
  exists m,
    list_delete store_next load_next destroy_lock d (l1 ++ x :: l2, st)
    = (l1 ++ l2, with_bytes (mem_free (node_addr x) st) m).
Proof.
  intros Hno Hx.
  destruct (unlink_found d x l2 l1 None Hno Hx) as (pre & p & Hun & Hpre).
  simpl in Hpre. unfold list_delete. rewrite Hun, mem_free_with_bytes.
  assert (Hlist : pre ++ from_prev p l2 = l1 ++ l2).
  { rewrite <- Hpre. destruct p; simpl; [|rewrite app_nil_r; reflexivity].
    rewrite <- app_assoc. reflexivity. }
  rewrite Hlist. destruct p as [q|].
  - unfold set_next. rewrite mem_free_with_bytes. eexists. reflexivity.
  - eexists. reflexivity.
Qed.

(** ** Every list operation keeps the list and the pool in order *)

Lemma list_insert_ok (d : Z) (ok : bool) (s : llist) :
  list_ok sizeof_Node s ->
  list_ok sizeof_Node (list_insert sizeof_Node store_node store_next d ok s).
Proof.
  destruct s as [hd st]. intros Hok.
  destruct (mem_alloc sizeof_Node ok st) as [p st1] eqn:Halloc.
  destruct (Z.eq_dec p NULL) as [-> | Hp].
  - rewrite (list_insert_full d ok hd st st1 (proj1 Hok) Halloc). exact Hok.
  - destruct (list_insert_shape d ok hd st st1 p Halloc Hp) as (m & ->).
    apply list_ok_bytes.
    apply (list_ok_perm (mkNode p d :: hd)); [apply Permutation_cons_append|].
    apply (alloc_node_list_ok hd st st1 d ok (mkNode p d) Hok Halloc Hp).
Qed.

Lemma list_insert_after_ok (prev_node d : Z) (ok : bool) (s : llist) :
  list_ok sizeof_Node s ->
  list_ok sizeof_Node
    (list_insert_after sizeof_Node store_node store_next load_next
                       prev_node d ok s).
Proof.
  destruct s as [hd st]. intros Hok. unfold list_insert_after.
  destruct (prev_node =? NULL); [exact Hok|].
  destruct (new_node sizeof_Node store_node d ok st) as [[n|] st'] eqn:Hnew.
  - pose proof (new_node_list_ok hd st st' d ok n Hok Hnew) as Hok'.
    unfold set_next. apply list_ok_bytes. apply list_ok_bytes.
    destruct (link_after_perm prev_node n hd) as [-> | Hperm].
    + apply (list_ok_tail n). exact Hok'.
    + apply (list_ok_perm (n :: hd)); assumption.
  - rewrite (new_node_none d ok st st' (proj1 Hok) Hnew). exact Hok.
Qed.

Lemma list_insert_before_ok (next_node d : Z) (ok : bool) (s : llist) :
  list_ok sizeof_Node s ->
  list_ok sizeof_Node
    (list_insert_before sizeof_Node store_node store_next load_next
                        next_node d ok s).
Proof.
  destruct s as [hd st]. intros Hok. unfold list_insert_before.
  destruct (next_node =? NULL); [exact Hok|].
  destruct (head_is next_node hd).
  - destruct (new_node sizeof_Node store_node d ok st) as [[n|] st'] eqn:Hnew.
    + unfold set_next. apply list_ok_bytes.
      apply (new_node_list_ok hd st st' d ok n Hok Hnew).
    + rewrite (new_node_none d ok st st' (proj1 Hok) Hnew). exact Hok.
  - destruct (walk_to_pred next_node hd) as [[[pre cur] post]|] eqn:Hwalk;
      [|exact Hok].
    destruct (new_node sizeof_Node store_node d ok st) as [[n|] st'] eqn:Hnew.
    + unfold set_next. apply list_ok_bytes. apply list_ok_bytes.
      apply (list_ok_perm (n :: hd)).
      * rewrite (walk_to_pred_app _ _ _ _ _ Hwalk).
        change (pre ++ cur :: n :: post) with (pre ++ [cur] ++ n :: post).
        rewrite app_assoc.
        change (pre ++ cur :: post) with (pre ++ [cur] ++ post).
        rewrite app_assoc. apply Permutation_middle.
      * apply (new_node_list_ok hd st st' d ok n Hok Hnew).
    + rewrite (new_node_none d ok st st' (proj1 Hok) Hnew). exact Hok.
Qed.

Lemma release_head_ok (x : Node) (l : list Node) (st : pool) :
  list_ok sizeof_Node (x :: l, st) ->
  list_ok sizeof_Node (l, mem_free (node_addr x) st).
Proof.
  intros (Hok & Hadj & Hnd & Hlive). simpl in *.
  inversion Hnd as [|? ? Hx_fresh Hnd']; subst.
  inversion Hlive as [|? ? Hx_live Hlive']; subst.
  destruct Hx_live as (b & Hb & Hb_used & Hb_size & Hb_addr).
  destruct (node_live_offset st x b Hok Hb Hb_addr) as (Hoff & Hnn).
  destruct (mem_free_bytes (node_addr x) st) as (_ & Hbase).
  pose proof (step_pool_size st (Release (node_addr x))) as Hsize.
  simpl in Hsize.
  unfold list_ok. simpl.
  split; [|split; [|split]].
  - split; [apply mem_free_ledger_ok; exact (proj1 Hok)|].
    unfold arena_ok. rewrite Hbase, Hsize. exact (proj2 Hok).
  - apply (step_no_resize_adjacent st (Release (node_addr x)) I Hadj).
  - exact Hnd'.
  - apply Forall_forall. intros m Hm.
    rewrite Forall_forall in Hlive'.
    destruct (Hlive' m Hm) as (u & Hu & Hu_used & Hu_size & Hu_addr).
    exists u. repeat split; try assumption.
    + unfold mem_free. destruct (node_addr x =? NULL); [exact Hu|]. simpl.
      apply (free_scan_keeps_used _ _ None u Hu Hu_used).
      rewrite Hoff. intros Heq. apply Hx_fresh.
      apply in_map_iff. exists m. split; [|exact Hm].
      rewrite Hu_addr, Hb_addr, Heq. reflexivity.
    + rewrite Hbase. exact Hu_addr.
Qed.

Lemma list_delete_ok (d : Z) (s : llist) :
  list_ok sizeof_Node s ->
  list_ok sizeof_Node (list_delete store_next load_next destroy_lock d s).
Proof.
  destruct s as [hd st]. intros Hok.
  destruct (data_split d hd) as [Hno | (l1 & x & l2 & -> & Hno & Hx)].
  - unfold list_delete. rewrite (unlink_missing d hd None Hno). exact Hok.
  - destruct (list_delete_shape d x l1 l2 st Hno Hx) as (m & ->).
    apply list_ok_bytes. apply release_head_ok.
    apply (list_ok_perm (l1 ++ x :: l2)); [|exact Hok].
    apply Permutation_sym. apply Permutation_middle.
Qed.

Lemma lrun_ok (cs : list lcall) :
  forall s, list_ok sizeof_Node s ->
    list_ok sizeof_Node
      (lrun sizeof_Node store_node store_next load_next destroy_lock cs s).
Proof.
  induction cs as [|c cs IH]; intros s Hok; [exact Hok|].
  simpl. apply IH. destruct c as [d ok | pn d ok | nn d ok | d]; simpl.
  - apply list_insert_ok. exact Hok.
  - apply list_insert_after_ok. exact Hok.
  - apply list_insert_before_ok. exact Hok.
  - apply list_delete_ok. exact Hok.
Qed.

Lemma list_init_ok (c p : Z) (bytes : Z -> Z) (ok : bool) (s : llist) :
  0 < c < SIZE_MAX1 -> 0 < p -> p + c <= SIZE_MAX1 ->
  list_init c p bytes ok = Some s -> list_ok sizeof_Node s.
Proof.
  intros Hc Hp Hpc Hinit. unfold list_init, mem_init in Hinit.
  destruct (p =? NULL); [discriminate|]. destruct ok; [|discriminate].
  injection Hinit as <-. unfold list_ok, pool_ok, ledger_ok, arena_ok. simpl.
  repeat split; try lia; constructor.
Qed.

(** X18.  After [list_init] on an arena the host really handed out, and
    after any sequence of insertions and deletions, the nodes of the list
    have pairwise distinct addresses, each node lies in a descriptor of
    the pool that is in use and [sizeof(Node)] bytes long, and the pool is
    well formed. *)
Theorem list_nodes_are_live_blocks
  (c p : Z) (bytes : Z -> Z) (ok : bool) (s0 : llist) (cs : list lcall) :
  0 < c < SIZE_MAX1 -> 0 < p -> p + c <= SIZE_MAX1 ->
  list_init c p bytes ok = Some s0 ->
  pool_ok
    (snd (lrun sizeof_Node store_node store_next load_next destroy_lock
               cs s0)) /\
  NoDup
    (map node_addr
       (fst (lrun sizeof_Node store_node store_next load_next destroy_lock
                  cs s0))) /\
  Forall
    (node_live sizeof_Node
       (snd (lrun sizeof_Node store_node store_next load_next destroy_lock
                  cs s0)))
    (fst (lrun sizeof_Node store_node store_next load_next destroy_lock
               cs s0)).
Proof.
  intros Hc Hp Hpc Hinit.
  destruct (lrun_ok cs s0 (list_init_ok c p bytes ok s0 Hc Hp Hpc Hinit))
    as (H1 & _ & H2 & H3).
  split; [exact H1 | split; [exact H2 | exact H3]].
Qed.
(** ** What the list operations do *)


Lemma list_search_found (d : Z) (x : Node) (l1 l2 : list Node) :
  Forall (fun y => data y <> d) l1 -> data x = d ->
  list_search d (l1 ++ x :: l2) = node_addr x.
Proof.
  intros Hno Hx. induction Hno as [|y l1 Hy _ IH]; simpl.
  - apply Z.eqb_eq in Hx. rewrite Hx. reflexivity.
  - apply Z.eqb_neq in Hy. rewrite Hy. exact IH.
Qed.

(** X20.  [list_search] returns the address of the first node in list
    order that holds the data; for a list whose nodes were all taken from
    the pool it returns [NULL] exactly when no node holds the data. *)
Theorem list_search_first (d : Z) (hd : list Node) (st : pool) :
  list_ok sizeof_Node (hd, st) ->
  (forall l1 x l2,
      hd = l1 ++ x :: l2 -> Forall (fun y => data y <> d) l1 -> data x = d ->
      list_search d hd = node_addr x) /\
  (list_search d hd = NULL <-> Forall (fun y => data y <> d) hd).
Proof.
  intros (Hok & _ & _ & Hlive). simpl in *. split.
  - intros l1 x l2 -> Hno Hx. apply list_search_found; assumption.
  - split.
    + intros Hnull.
      destruct (data_split d hd) as [Hno | (l1 & x & l2 & Hl & Hno & Hx)];
        [exact Hno|].
      exfalso. rewrite Hl, (list_search_found d x l1 l2 Hno Hx) in Hnull.
      rewrite Forall_forall in Hlive.
      destruct (Hlive x) as (b & Hb & _ & _ & Haddr).
      { rewrite Hl. apply in_or_app. right. left. reflexivity. }
      destruct (node_live_offset st x b Hok Hb Haddr) as (_ & Hnn).
      contradiction.
    + intros Hno. induction Hno as [|y l Hy _ IH]; simpl.
      * reflexivity.
      * apply Z.eqb_neq in Hy. rewrite Hy. apply IH.
        inversion Hlive; assumption.
Qed.

(** X21.  [list_delete] unlinks the first node in list order that holds
    the data and releases its address: the list is the old one without
    that node and the ledger is the one [mem_free] on the node's address
    gives.  When no node holds the data (the empty list included) the
    list and the pool stay exactly as they are. *)
Theorem list_delete_first (d : Z) (hd : list Node) (st : pool) :
  (Forall (fun y => data y <> d) hd ->
   list_delete store_next load_next destroy_lock d (hd, st) = (hd, st)) /\
  (forall l1 x l2,
      hd = l1 ++ x :: l2 -> Forall (fun y => data y <> d) l1 -> data x = d ->
      fst (list_delete store_next load_next destroy_lock d (hd, st))
      = l1 ++ l2 /\
      same_ledger
        (snd (list_delete store_next load_next destroy_lock d (hd, st)))
        (mem_free (node_addr x) st)).
Proof.
  split.
  - intros Hno. unfold list_delete. rewrite (unlink_missing d hd None Hno).
    reflexivity.
  - intros l1 x l2 -> Hno Hx.
    destruct (list_delete_shape d x l1 l2 st Hno Hx) as (m & ->).
    split; [reflexivity | apply same_ledger_bytes].
Qed.


(** X23.  [list_insert_before] with a non-null pointer to no node of the
    list changes neither the list nor the pool: nothing is allocated.
    With a pointer to a node of the list it makes one [mem_alloc]: when
    that returns [NULL] nothing changes, otherwise the new node is linked
    directly in front of that node and the ledger is the one [mem_alloc]
    left. *)
Theorem list_insert_before_cases (next_node d : Z) (ok : bool)
  (hd : list Node) (st : pool) :
  next_node <> NULL -> pool_ok st ->
  (Forall (fun y => node_addr y <> next_node) hd ->
   list_insert_before sizeof_Node store_node store_next load_next
                      next_node d ok (hd, st) = (hd, st)) /\
  (forall l1 x l2 p st1,
      hd = l1 ++ x :: l2 ->
      Forall (fun y => node_addr y <> next_node) l1 ->
      node_addr x = next_node ->
      mem_alloc sizeof_Node ok st = (p, st1) ->
      (p = NULL ->
       list_insert_before sizeof_Node store_node store_next load_next
                          next_node d ok (hd, st) = (hd, st)) /\
      (p <> NULL ->
       fst (list_insert_before sizeof_Node store_node store_next load_next
                               next_node d ok (hd, st))
       = l1 ++ mkNode p d :: x :: l2 /\
       same_ledger
         (snd (list_insert_before sizeof_Node store_node store_next load_next
                                  next_node d ok (hd, st)))
         st1)).
Proof.
  intros Hnn Hok. apply Z.eqb_neq in Hnn.
  unfold list_insert_before. rewrite Hnn. split.
  - intros Hno. rewrite (walk_to_pred_missing next_node hd Hno).
    destruct Hno as [|y l Hy _]; simpl; [reflexivity|].
    apply Z.eqb_neq in Hy. rewrite Hy. reflexivity.
  - intros l1 x l2 p st1 -> Hno Hx Halloc.
    pose proof (mem_alloc_null_unchanged st sizeof_Node ok Hok) as Hsame.
    rewrite Halloc in Hsame. simpl in Hsame.
    destruct (new_node_alloc d ok st st1 p Halloc) as (Hnone & Hsome).
    destruct l1 as [|c l1].
    + simpl app. simpl head_is. apply Z.eqb_eq in Hx. rewrite Hx. split.
      * intros Hp. rewrite (Hnone Hp), (Hsame Hp). reflexivity.
      * intros Hp. destruct (Hsome Hp) as (m & ->).
        split; [reflexivity | repeat split].
    + inversion Hno as [|? ? Hc Hno']; subst.
      simpl app. simpl head_is. apply Z.eqb_neq in Hc. rewrite Hc.
      destruct (walk_to_pred_found (node_addr x) x l2 l1 c Hno' eq_refl)
        as (pre & cur & Hwalk & Hpre).
      simpl app in Hwalk. rewrite Hwalk. split.
      * intros Hp. rewrite (Hnone Hp), (Hsame Hp). reflexivity.
      * intros Hp. destruct (Hsome Hp) as (m & ->).
        split; [|repeat split]. simpl fst.
        change (pre ++ cur :: mkNode p d :: x :: l2)
          with (pre ++ [cur] ++ mkNode p d :: x :: l2).
        rewrite app_assoc, Hpre. reflexivity.
Qed.

(** X24.  [list_insert_after] with a null pointer does nothing.  With a
    pointer to a node of the list it makes one [mem_alloc]: when that
    returns [NULL] nothing changes, otherwise the new node is linked
    directly behind that node and the ledger is the one [mem_alloc]
    left. *)
Theorem list_insert_after_cases (prev_node d : Z) (ok : bool)
  (hd : list Node) (st : pool) :
  pool_ok st ->
  (prev_node = NULL ->
   list_insert_after sizeof_Node store_node store_next load_next
                     prev_node d ok (hd, st) = (hd, st)) /\
  (forall l1 x l2 p st1,
      prev_node <> NULL ->
      hd = l1 ++ x :: l2 ->
      Forall (fun y => node_addr y <> prev_node) l1 ->
      node_addr x = prev_node ->
      mem_alloc sizeof_Node ok st = (p, st1) ->
      (p = NULL ->
       list_insert_after sizeof_Node store_node store_next load_next
                         prev_node d ok (hd, st) = (hd, st)) /\
      (p <> NULL ->
       fst (list_insert_after sizeof_Node store_node store_next load_next
                              prev_node d ok (hd, st))
       = l1 ++ x :: mkNode p d :: l2 /\
       same_ledger
         (snd (list_insert_after sizeof_Node store_node store_next load_next
                                 prev_node d ok (hd, st)))
         st1)).
Proof.
  intros Hok. split.
  - intros ->. reflexivity.
  - intros l1 x l2 p st1 Hnn -> Hno Hx Halloc.
    apply Z.eqb_neq in Hnn. unfold list_insert_after. rewrite Hnn.
    pose proof (mem_alloc_null_unchanged st sizeof_Node ok Hok) as Hsame.
    rewrite Halloc in Hsame. simpl in Hsame.
    destruct (new_node_alloc d ok st st1 p Halloc) as (Hnone & Hsome).
    split.
    + intros Hp. rewrite (Hnone Hp), (Hsame Hp). reflexivity.
    + intros Hp. destruct (Hsome Hp) as (m & ->).
      rewrite (link_after_found prev_node (mkNode p d) x l1 l2 Hno Hx).
      split; [reflexivity | repeat split].
Qed.

End LinkedListProofs.

(** A list of 16-byte nodes on [pool100]. *)
Lemma list_nodes_are_live_blocks_witness :
  pool_ok
    (snd (lrun16 [LInsert 7 true; LInsert 9 true; LInsertBefore 4112 8 true;
                  LDelete 7; LInsertAfter 4112 5 true] ([], pool100))) /\
  NoDup
    (map node_addr
       (fst (lrun16 [LInsert 7 true; LInsert 9 true;
                     LInsertBefore 4112 8 true;
                     LDelete 7; LInsertAfter 4112 5 true] ([], pool100)))) /\
  Forall
    (node_live 16
       (snd (lrun16 [LInsert 7 true; LInsert 9 true;
                     LInsertBefore 4112 8 true;
                     LDelete 7; LInsertAfter 4112 5 true] ([], pool100))))
    (fst (lrun16 [LInsert 7 true; LInsert 9 true; LInsertBefore 4112 8 true;
                  LDelete 7; LInsertAfter 4112 5 true] ([], pool100))).
Proof.
  apply (list_nodes_are_live_blocks 16 store_node16 store_next16 load_next16
           destroy_lock16 ltac:(lia) 100 4096 zero_bytes true).
  - unfold SIZE_MAX1. lia.
  - lia.
  - unfold SIZE_MAX1. lia.
  - reflexivity.
Defined.

Lemma list16_ok (cs : list lcall) : list_ok 16 (lrun16 cs ([], pool100)).
Proof.
  apply (lrun_ok 16 store_node16 store_next16 load_next16 destroy_lock16
           ltac:(lia)).
  apply (list_init_ok 16 100 4096 zero_bytes true).
  - unfold SIZE_MAX1. lia.
  - lia.
  - unfold SIZE_MAX1. lia.
  - reflexivity.
Qed.


Lemma list_search_first_witness :
  list_search 7 [mkNode 4096 7; mkNode 4112 9; mkNode 4128 7] = 4096 /\
  (list_search 8 [mkNode 4096 7; mkNode 4112 9; mkNode 4128 7] = NULL <->
   Forall (fun y => data y <> 8) [mkNode 4096 7; mkNode 4112 9; mkNode 4128 7]).
Proof.
  split.
  - apply (proj1 (list_search_first 16 7 _ _
                    (list16_ok [LInsert 7 true; LInsert 9 true; LInsert 7 true]))
             [] (mkNode 4096 7) [mkNode 4112 9; mkNode 4128 7]).
    + reflexivity.
    + constructor.
    + reflexivity.
  - apply (proj2 (list_search_first 16 8 _ _
                    (list16_ok [LInsert 7 true; LInsert 9 true; LInsert 7 true]))).
Defined.

(** Deleting the middle node of three releases its block at offset 16. *)
Lemma list_delete_first_witness :
  fst (list_delete store_next16 load_next16 destroy_lock16 9
         ([mkNode 4096 7; mkNode 4112 9; mkNode 4128 7],
          snd (lrun16 [LInsert 7 true; LInsert 9 true; LInsert 7 true]
                      ([], pool100))))
  = [mkNode 4096 7] ++ [mkNode 4128 7] /\
  same_ledger
    (snd (list_delete store_next16 load_next16 destroy_lock16 9
            ([mkNode 4096 7; mkNode 4112 9; mkNode 4128 7],
             snd (lrun16 [LInsert 7 true; LInsert 9 true; LInsert 7 true]
                         ([], pool100)))))
    (mem_free (node_addr (mkNode 4112 9))
       (snd (lrun16 [LInsert 7 true; LInsert 9 true; LInsert 7 true]
                    ([], pool100)))).
Proof.
  apply (proj2 (list_delete_first store_next16 load_next16 destroy_lock16 9 _ _)
           [mkNode 4096 7] (mkNode 4112 9) [mkNode 4128 7]).
  - reflexivity.
  - repeat constructor. discriminate.
  - reflexivity.
Defined.


Lemma list_insert_before_cases_witness :
  fst (list_insert_before 16 store_node16 store_next16 load_next16
         4112 8 true
         ([mkNode 4096 7; mkNode 4112 9],
          snd (lrun16 [LInsert 7 true; LInsert 9 true] ([], pool100))))
  = [mkNode 4096 7] ++ mkNode 4128 8 :: mkNode 4112 9 :: [] /\
  same_ledger
    (snd (list_insert_before 16 store_node16 store_next16 load_next16
            4112 8 true
            ([mkNode 4096 7; mkNode 4112 9],
             snd (lrun16 [LInsert 7 true; LInsert 9 true] ([], pool100)))))
    (snd (mem_alloc 16 true
            (snd (lrun16 [LInsert 7 true; LInsert 9 true] ([], pool100))))).
Proof.
  apply (proj2 (proj2 (list_insert_before_cases 16 store_node16 store_next16
                         load_next16 4112 8 true _ _ ltac:(discriminate)
                         (proj1 (list16_ok [LInsert 7 true; LInsert 9 true])))
                  [mkNode 4096 7] (mkNode 4112 9) [] 4128 _
                  eq_refl ltac:(repeat constructor; discriminate)
                  eq_refl eq_refl)).
  discriminate.
Defined.

Lemma list_insert_after_cases_witness :
  fst (list_insert_after 16 store_node16 store_next16 load_next16
         4096 8 true
         ([mkNode 4096 7; mkNode 4112 9],
          snd (lrun16 [LInsert 7 true; LInsert 9 true] ([], pool100))))
  = [] ++ mkNode 4096 7 :: mkNode 4128 8 :: [mkNode 4112 9] /\
  same_ledger
    (snd (list_insert_after 16 store_node16 store_next16 load_next16
            4096 8 true
            ([mkNode 4096 7; mkNode 4112 9],
             snd (lrun16 [LInsert 7 true; LInsert 9 true] ([], pool100)))))
    (snd (mem_alloc 16 true
            (snd (lrun16 [LInsert 7 true; LInsert 9 true] ([], pool100))))).
Proof.
  apply (proj2 (proj2 (list_insert_after_cases 16 store_node16 store_next16
                         load_next16 4096 8 true _ _
                         (proj1 (list16_ok [LInsert 7 true; LInsert 9 true])))
                  [] (mkNode 4096 7) [mkNode 4112 9] 4128 _
                  ltac:(discriminate) eq_refl ltac:(constructor)
                  eq_refl eq_refl)).
  discriminate.
Defined.

(** ** Counting and cleanup *)

Lemma int_wrap_small (z : Z) : - 2 ^ 31 <= z < 2 ^ 31 -> int_wrap z = z.
Proof.
  intros Hz. unfold int_wrap. rewrite Z.mod_small; lia.
Qed.

Lemma count_loop (l : list Node) :
  forall count, 0 <= count -> count + Z.of_nat (length l) < 2 ^ 31 ->
    fold_left (fun c (_ : Node) => int_wrap (c + 1)) l count
    = count + Z.of_nat (length l).
Proof.
  induction l as [|x l IH]; intros count Hc Hb.
  - simpl. lia.
  - cbn [fold_left]. cbn [length] in Hb. rewrite Nat2Z.inj_succ in Hb.
    rewrite int_wrap_small by lia.
    rewrite IH by lia. cbn [length]. rewrite Nat2Z.inj_succ. lia.
Qed.

(** X25.  [list_count_nodes] returns the number of nodes of the list, as
    long as that number fits in an [int]. *)
Theorem list_count_nodes_length (hd : list Node) :
  Z.of_nat (length hd) < 2 ^ 31 ->
  list_count_nodes hd = Z.of_nat (length hd).
Proof.
  intros Hb. unfold list_count_nodes. rewrite count_loop; lia.
Qed.

Lemma list_count_nodes_length_witness :
  list_count_nodes [mkNode 4096 7; mkNode 4112 9; mkNode 4128 7] = 3.
Proof.
  apply (list_count_nodes_length [mkNode 4096 7; mkNode 4112 9; mkNode 4128 7]).
  simpl. lia.
Defined.

Lemma release_all_bytes (hd : list Node) :
  forall st,
    pool_bytes (fold_left (fun st' cur => mem_free (node_addr cur) st') hd st)
    = pool_bytes st.
Proof.
  induction hd as [|x hd IH]; intros st; simpl.
  - reflexivity.
  - rewrite IH. apply mem_free_bytes.
Qed.

(** X26.  [list_cleanup] leaves the empty list on a torn-down pool,
    whatever the list held, and an insertion after it finds no memory and
    changes nothing. *)
Theorem list_cleanup_tears_down (sizeof_Node : Z)
  (store_node store_next : Z -> Z -> (Z -> Z) -> (Z -> Z))
  (hd : list Node) (st : pool) :
  list_cleanup (hd, st) = ([], mem_deinit st) /\
  forall d ok,
    list_insert sizeof_Node store_node store_next d ok (list_cleanup (hd, st))
    = list_cleanup (hd, st).
Proof.
  assert (Hclean : list_cleanup (hd, st) = ([], mem_deinit st)).
  { unfold list_cleanup, mem_deinit. rewrite release_all_bytes. reflexivity. }
  split; [exact Hclean|].
  intros d ok. rewrite Hclean. unfold list_insert, new_node, mem_alloc.
  destruct (sizeof_Node =? 0); reflexivity.
Qed.

(** The stores of the list reach the arena: the data of the first node,
    the link written into it by the second insertion, and the mark left
    by the destruction of its mutex when it is deleted. *)
Example list_stores_reach_arena :
  pool_bytes (snd (lrun16 [LInsert 7 true] ([], pool100))) 0 = 7 /\
  pool_bytes (snd (lrun16 [LInsert 7 true; LInsert 9 true] ([], pool100))) 8
  = 4112 /\
  pool_bytes
    (snd (lrun16 [LInsert 7 true; LInsert 9 true; LDelete 7] ([], pool100))) 15
  = 255 /\
  block_list
    (snd (lrun16 [LInsert 7 true; LInsert 9 true; LDelete 7] ([], pool100)))
  = [mkBlock 0 16 true; mkBlock 16 16 false; mkBlock 32 68 true].
Proof. repeat split. Qed.
